(** * dataWave: aggregation and fair-share wave allocation

    A shallow embedding of the two computational functions of [src/app.js],
    [aggregateAndNormalize] and [distributeWaves], together with the guard of
    their caller [renderChart].

    Modelling conventions.
    - JavaScript numbers that carry measurements (contributions, shares,
      remainders) are exact rationals [Qc]; integer-valued numbers (years,
      class numbers, ranks, wave counts, the budget) are [Z].  Rounding,
      [NaN] and infinities are outside the model.
    - A JavaScript object used as a dictionary is a [gmap] of its own
      properties.  Enumeration order is the order of [map_to_list]; no
      statement below depends on it.  State codes are data keys such as
      [FJ]; names a plain object inherits ([constructor], [toString], ...)
      are outside the model.
    - An array is a [list]; an in-place update of an element is a list
      insert at its index.
    - The [for] loop of [distributeWaves] has no bound in the source; it is
      run with a fuel counter, and a call is said to return when some amount
      of fuel is enough. *)

From Stdlib Require Import QArith Qcanon Qround Ascii.
From stdpp Require Import base numbers option list sorting gmap strings pretty fin_maps.

Local Open Scope Z_scope.

(** ** Outcomes of a call *)

Inductive js_error : Type :=
| TypeError.

Inductive outcome (A : Type) : Type :=
| Returned (a : A)
| Threw (e : js_error)
| OutOfFuel.

Arguments Returned {A} a.
Arguments Threw {A} e.
Arguments OutOfFuel {A}.

Definition outcome_map {A B : Type} (f : A → B) (o : outcome A) : outcome B :=
  match o with
  | Returned a => Returned (f a)
  | Threw e => Threw e
  | OutOfFuel => OutOfFuel
  end.

(** ** [Array.prototype.sort]

    The sort is stable.  [before a b] stands for [compare(a, b) <= 0]: [a]
    may stay in front of [b].  Insertion from the right puts an element in
    front of the first element it may stay in front of, so that equal
    elements keep their incoming order. *)

Section JsSort.
Context {A : Type} (before : A → A → bool).

Fixpoint js_insert (x : A) (l : list A) : list A :=
  match l with
  | [] => [x]
  | y :: l' => if before x y then x :: y :: l' else y :: js_insert x l'
  end.

Definition js_sort (l : list A) : list A := foldr js_insert [] l.
End JsSort.

(** [Object.fromEntries(pairs)]: a later pair overwrites an earlier one with
    the same key. *)
Definition fromEntries `{Countable K} {V : Type} (pairs : list (K * V)) : gmap K V :=
  foldl (λ m p, <[p.1 := p.2]> m) ∅ pairs.

(** [Object.entries(o)] and [Object.values(o)]. *)
Definition entries_of `{Countable K} {V : Type} (o : gmap K V) : list (K * V) :=
  map_to_list o.

Definition values_of `{Countable K} {V : Type} (o : gmap K V) : list V :=
  (map_to_list o).*2.

(** ** The allocator: [distributeWaves] *)

Module Allocator.

(** The objects [renderChart] passes to [distributeWaves]. *)
Record entry : Type := Entry {
  stateCode : string;
  stateName : string;
  subregion : string;
  share : Qc;
  rank : Z;
  missing : Qc
}.

(** [{ ...item, count: base, rem: ... }]: the entry, spread, with the three
    fields the allocator adds. *)
Record item : Type := Item {
  ent : entry;
  exact : Qc;
  count : Z;
  rem : Qc
}.

Definition floor (q : Qc) : Z := Qfloor q.

(** [item.share > 0 ? Math.max(1, Math.floor(item.exact)) : 0]. *)
Definition base_count (share exact : Qc) : Z :=
  if decide (0 < share)%Qc then Z.max 1 (floor exact) else 0.

(** [entries.map(e => ({ ...e, exact: e.share * totalWaves }))] followed by
    the body of [ideal.map(item => ...)], for one element. *)
Definition to_floored (totalWaves : Z) (e : entry) : item :=
  let ex := (share e * Qc_of_Z totalWaves)%Qc in
  {| ent := e;
     exact := ex;
     count := base_count (share e) ex;
     rem := (ex - Qc_of_Z (floor ex))%Qc |}.

(** The value of [assigned] once [ideal.map] is over: each callback has run
    [assigned += base]. *)
Definition sum_counts (l : list item) : Z :=
  foldr (λ it acc, count it + acc) 0 l.

(** [floored.sort((a, b) => b.rem - a.rem)]: descending by [rem]. *)
Definition rem_before (a b : item) : bool := bool_decide (rem b ≤ rem a)%Qc.

Definition sort_by_rem (l : list item) : list item := js_sort rem_before l.

Definition with_count (it : item) (c : Z) : item :=
  {| ent := ent it; exact := exact it; count := c; rem := rem it |}.

(** The redistribution loop
    [for (let i = 0; delta !== 0; i = (i + 1) % floored.length) { ... }].
    Reading [floored[i]] past the end gives [undefined], and [it.share]
    then throws. *)
Fixpoint walk (fuel : nat) (i : nat) (delta : Z) (floored : list item)
  : outcome (list item) :=
  if decide (delta = 0) then Returned floored
  else
    match fuel with
    | O => OutOfFuel
    | S fuel' =>
        match floored !! i with
        | None => Threw TypeError
        | Some it =>
            let i' := ((i + 1) mod length floored)%nat in
            if decide (share (ent it) = 0%Qc) then walk fuel' i' delta floored
            else if decide (0 < delta) then
              walk fuel' i' (delta - 1) (<[i := with_count it (count it + 1)]> floored)
            else if decide (1 < count it) then
              walk fuel' i' (delta + 1) (<[i := with_count it (count it - 1)]> floored)
            else walk fuel' i' delta floored
        end
    end.

Definition distributeWaves (fuel : nat) (entries : list entry) (totalWaves : Z)
  : outcome (gmap string Z) :=
  let floored := to_floored totalWaves <$> entries in
  let assigned := sum_counts floored in
  let delta := totalWaves - assigned in
  let sorted := sort_by_rem floored in
  outcome_map (λ fl, fromEntries ((λ x, (stateCode (ent x), count x)) <$> fl))
              (walk fuel 0 delta sorted).

End Allocator.

(** ** The aggregator: [aggregateAndNormalize] *)

Module Raw.
Record record : Type := Record {
  year : Z;
  class_num : Z;
  state_code : string;
  state_name : string;
  subregion_name : string;
  value_contribution_to_class : Qc;
  state_rank_per_class : Z;
  pct_missing_values : Qc
}.
End Raw.

(** The per-state accumulator of the first pass:
    [{ stateName, subregion, rawSum, rank, missing }]. *)
Module Agg.
Record state : Type := State {
  stateName : string;
  subregion : string;
  rawSum : Qc;
  rank : Z;
  missing : Qc
}.
End Agg.

(** The per-state value of a normalized bucket:
    [{ stateName, subregion, share, rank, missing }]. *)
Module Norm.
Record state : Type := State {
  stateName : string;
  subregion : string;
  share : Qc;
  rank : Z;
  missing : Qc
}.
End Norm.

Module Aggregator.

(** A [Set] keeps its elements in insertion order, without repetition. *)
Definition set_add (x : Z) (s : list Z) : list Z :=
  if decide (x ∈ s) then s else s ++ [x].

(** [[...set].sort((a, b) => a - b)]. *)
Definition sort_numeric (l : list Z) : list Z := js_sort Z.leb l.

(** The three accumulators of the first pass. *)
Record pass1 : Type := Pass1 {
  byYearClassState : gmap Z (gmap Z (gmap string Agg.state));
  yearsSet : list Z;
  classesSet : list Z
}.

Definition pass1_init : pass1 :=
  {| byYearClassState := ∅; yearsSet := []; classesSet := [] |}.

(** The body of [raw.forEach(d => ...)].  [o[k] ||= v] leaves an existing
    object in place and stores [v] otherwise. *)
Definition visit (acc : pass1) (d : Raw.record) : pass1 :=
  let classes := default ∅ (byYearClassState acc !! Raw.year d) in
  let bucket := default ∅ (classes !! Raw.class_num d) in
  let st :=
    default {| Agg.stateName := Raw.state_name d;
               Agg.subregion := Raw.subregion_name d;
               Agg.rawSum := 0%Qc;
               Agg.rank := Raw.state_rank_per_class d;
               Agg.missing := Raw.pct_missing_values d |}
            (bucket !! Raw.state_code d) in
  let st' :=
    {| Agg.stateName := Agg.stateName st;
       Agg.subregion := Agg.subregion st;
       Agg.rawSum := (Agg.rawSum st + Raw.value_contribution_to_class d)%Qc;
       Agg.rank := Raw.state_rank_per_class d;
       Agg.missing := Raw.pct_missing_values d |} in
  {| byYearClassState :=
       <[Raw.year d := <[Raw.class_num d := <[Raw.state_code d := st']> bucket]> classes]>
         (byYearClassState acc);
     yearsSet := set_add (Raw.year d) (yearsSet acc);
     classesSet := set_add (Raw.class_num d) (classesSet acc) |}.

Definition aggregate (raw : list Raw.record) : pass1 :=
  foldl visit pass1_init raw.

(** [Object.values(states).reduce((s, st) => s + st.rawSum, 0)]. *)
Definition total (states : gmap string Agg.state) : Qc :=
  foldl (λ s st, (s + Agg.rawSum st)%Qc) 0%Qc (values_of states).

(** [total || 1]. *)
Definition divisor (states : gmap string Agg.state) : Qc :=
  if decide (total states = 0%Qc) then 1%Qc else total states.

Definition normalizeState (d : Qc) (s : Agg.state) : Norm.state :=
  {| Norm.stateName := Agg.stateName s;
     Norm.subregion := Agg.subregion s;
     Norm.share := (Agg.rawSum s / d)%Qc;
     Norm.rank := Agg.rank s;
     Norm.missing := Agg.missing s |}.

(** [Object.fromEntries(Object.entries(states).map(([sc, s]) => [sc, {...}]))]. *)
Definition normalizeBucket (states : gmap string Agg.state) : gmap string Norm.state :=
  fromEntries ((λ p, (p.1, normalizeState (divisor states) p.2)) <$> entries_of states).

(** The template string [`${yr}|${cls}`], integers printed in decimal. *)
Definition bucket_key (yr cls : Z) : string :=
  pretty yr +:+ "|" +:+ pretty cls.

(** [Object.entries(byYearClassState).forEach(([yr, classes]) =>
      Object.entries(classes).forEach(([cls, states]) => { ... }))]. *)
Definition normalize (nested : gmap Z (gmap Z (gmap string Agg.state)))
  : gmap string (gmap string Norm.state) :=
  foldl (λ acc yc,
           foldl (λ acc' cs, <[bucket_key yc.1 cs.1 := normalizeBucket cs.2]> acc')
                 acc (entries_of yc.2))
        ∅ (entries_of nested).

Record result : Type := Result {
  byYearClass : gmap string (gmap string Norm.state);
  years : list Z;
  classes : list Z
}.

Definition aggregateAndNormalize (raw : list Raw.record) : result :=
  let p := aggregate raw in
  {| byYearClass := normalize (byYearClassState p);
     years := sort_numeric (yearsSet p);
     classes := sort_numeric (classesSet p) |}.

End Aggregator.

(** ** The caller: the part of [renderChart] up to the allocation *)

Module Renderer.

Definition WAVE_COUNT : Z := 100.

Section RenderChart.
(** [String.prototype.localeCompare] depends on the host's locale. *)
Variable localeCompare : string → string → Z.

Definition to_entry (p : string * Norm.state) : Allocator.entry :=
  {| Allocator.stateCode := p.1;
     Allocator.stateName := Norm.stateName p.2;
     Allocator.subregion := Norm.subregion p.2;
     Allocator.share := Norm.share p.2;
     Allocator.rank := Norm.rank p.2;
     Allocator.missing := Norm.missing p.2 |}.

(** [d !== 0 ? d : a.stateName.localeCompare(b.stateName)], read as
    "[a] may stay in front of [b]". *)
Definition entry_before (a b : Allocator.entry) : bool :=
  let d := localeCompare (Allocator.subregion a) (Allocator.subregion b) in
  if decide (d ≠ 0) then bool_decide (d ≤ 0)
  else bool_decide (localeCompare (Allocator.stateName a) (Allocator.stateName b) ≤ 0).

(** [None]: the function returned at [if (!entries.length)], showing the
    no-data warning.  [Some o]: [distributeWaves] was called, with outcome
    [o].  [classPicker.value] is the decimal string of a class number. *)
Definition renderChart (fuel : nat) (byYearClass : gmap string (gmap string Norm.state))
    (currentYear cls : Z) : option (outcome (gmap string Z)) :=
  let key := Aggregator.bucket_key currentYear cls in
  let info := default ∅ (byYearClass !! key) in
  let entries := to_entry <$> entries_of info in
  if decide (length entries = 0%nat) then None
  else
    let entries := js_sort entry_before entries in
    Some (Allocator.distributeWaves fuel entries WAVE_COUNT).
End RenderChart.

End Renderer.

(** * Vocabulary of the statements *)

(** ** About the allocator *)

Module AllocatorNotions.
Import Allocator.

(** Sum of the values of the returned object. *)
Definition sum_values (m : gmap string Z) : Z :=
  foldl Z.add 0 (values_of m).

(** Number of entries whose share is not zero. *)
Definition countNonzero (entries : list entry) : nat :=
  length (filter (λ e, share e ≠ 0%Qc) entries).

Definition shares_nonneg (entries : list entry) : Prop :=
  Forall (λ e, (0 ≤ share e)%Qc) entries.

(** An entry the loop acts on: non-zero share, and either units to hand out
    or a count that can still be lowered. *)
Definition active (delta : Z) (it : item) : Prop :=
  share (ent it) ≠ 0%Qc ∧ (0 < delta ∨ 1 < count it).

Global Instance active_dec delta it : Decision (active delta it).
Proof. unfold active. apply _. Defined.

Definition advance (delta : Z) (it : item) : item :=
  with_count it (if decide (0 < delta) then count it + 1 else count it - 1).

Definition toward0 (delta : Z) : Z :=
  if decide (0 < delta) then delta - 1 else delta + 1.

(** Zero-share entries hold no unit, the others at least one. *)
Definition counted (it : item) : Prop :=
  if decide (share (ent it) = 0%Qc) then count it = 0 else 1 ≤ count it.

Definition well_counted (fl : list item) : Prop := Forall counted fl.

Definition countNZ (fl : list item) : Z :=
  Z.of_nat (countNonzero (ent <$> fl)).

(** What the loop needs in order to finish: somebody to give to when
    [delta > 0], enough units above one to take back when [delta < 0]. *)
Definition can_finish (fl : list item) (delta : Z) : Prop :=
  well_counted fl
  ∧ (0 < delta → Exists (λ it, share (ent it) ≠ 0%Qc) fl)
  ∧ (delta < 0 → - delta ≤ sum_counts fl - countNZ fl).

(** The array and the balance the loop starts from, and the object built
    from the array it ends with. *)
Definition start (B : Z) (entries : list entry) : list item :=
  sort_by_rem (to_floored B <$> entries).

Definition delta0 (B : Z) (entries : list entry) : Z :=
  B - sum_counts (to_floored B <$> entries).

Definition finish (r : list item) : gmap string Z :=
  fromEntries ((λ x, (stateCode (ent x), count x)) <$> r).

End AllocatorNotions.

(** ** About the aggregator *)

Module AggregatorNotions.
Import Aggregator.

(** Sum of the shares of a normalized bucket. *)
Definition sum_shares (b : gmap string Norm.state) : Qc :=
  foldl (λ s n, (s + Norm.share n)%Qc) 0%Qc (values_of b).

(** The first-pass bucket of a year and class, and the accumulator of a
    state in it. *)
Definition lookup_bucket (acc : pass1) (yr cls : Z) : option (gmap string Agg.state) :=
  byYearClassState acc !! yr ≫= λ classes, classes !! cls.

Definition lookup_state (acc : pass1) (yr cls : Z) (sc : string) : option Agg.state :=
  lookup_bucket acc yr cls ≫= λ bucket, bucket !! sc.

(** The raw sum held for a key, nothing counting as zero. *)
Definition rawSumAt (acc : pass1) (yr cls : Z) (sc : string) : Qc :=
  default 0%Qc (Agg.rawSum <$> lookup_state acc yr cls sc).

Definition matches (yr cls : Z) (sc : string) (d : Raw.record) : Prop :=
  Raw.year d = yr ∧ Raw.class_num d = cls ∧ Raw.state_code d = sc.

Global Instance matches_dec yr cls sc d : Decision (matches yr cls sc d).
Proof. unfold matches. apply _. Defined.

(** What one record does to the accumulator of its own key. *)
Definition absorb (o : option Agg.state) (d : Raw.record) : Agg.state :=
  let st :=
    default {| Agg.stateName := Raw.state_name d;
               Agg.subregion := Raw.subregion_name d;
               Agg.rawSum := 0%Qc;
               Agg.rank := Raw.state_rank_per_class d;
               Agg.missing := Raw.pct_missing_values d |} o in
  {| Agg.stateName := Agg.stateName st;
     Agg.subregion := Agg.subregion st;
     Agg.rawSum := (Agg.rawSum st + Raw.value_contribution_to_class d)%Qc;
     Agg.rank := Raw.state_rank_per_class d;
     Agg.missing := Raw.pct_missing_values d |}.

Definition absorb_all (ms : list Raw.record) : option Agg.state :=
  foldl (λ o d, Some (absorb o d)) None ms.

Definition sum_contributions (ms : list Raw.record) : Qc :=
  foldr (λ d s, (Raw.value_contribution_to_class d + s)%Qc) 0%Qc ms.

Fixpoint bar_free (s : string) : Prop :=
  match s with
  | EmptyString => True
  | String c s' => c ≠ "|"%char ∧ bar_free s'
  end.

Definition flat (nested : gmap Z (gmap Z (gmap string Agg.state)))
  : list (string * gmap string Norm.state) :=
  entries_of nested ≫= λ yc,
    (λ cs, (bucket_key yc.1 cs.1, normalizeBucket cs.2)) <$> entries_of yc.2.

Definition qsum (l : list Qc) : Qc := foldr Qcplus 0%Qc l.

End AggregatorNotions.

(** ** Sample inputs *)

Module Examples.
Import Allocator.

Definition q (n : Z) (d : positive) : Qc := Q2Qc (n # d).

Definition state (code : string) (sh : Qc) : entry :=
  {| stateCode := code; stateName := code; subregion := "Melanesia";
     share := sh; rank := 1; missing := 0%Qc |}.

(** The scenarios of the allocator's specification. *)
Definition exact_split : list entry :=
  [state "A" (q 1 2); state "B" (q 3 10); state "C" (q 2 10)].
Definition one_left_over : list entry :=
  [state "A" (q 34 100); state "B" (q 33 100); state "C" (q 33 100)].
Definition tiny_share : list entry :=
  [state "A" (q 1 1000); state "B" (q 999 1000)].
Definition two_halves : list entry :=
  [state "A" (q 1 2); state "B" (q 1 2)].
Definition only_zero : list entry := [state "A" 0%Qc].
Definition fifteen_states : list entry :=
  (λ code, state code (q 1 15))
    <$> ["AS"; "CK"; "FJ"; "FM"; "GU"; "KI"; "MH"; "NC"; "NR"; "NU";
         "PF"; "PG"; "PW"; "SB"; "TO"].

Definition counts_ABC (o : outcome (gmap string Z)) :=
  outcome_map (λ m : gmap string Z, (m !! "A", m !! "B", m !! "C")) o.

End Examples.

Module RawExamples.

Definition fiji (v : Qc) (rk : Z) : Raw.record :=
  {| Raw.year := 2022; Raw.class_num := 1; Raw.state_code := "FJ";
     Raw.state_name := "Fiji"; Raw.subregion_name := "Melanesia";
     Raw.value_contribution_to_class := v;
     Raw.state_rank_per_class := rk; Raw.pct_missing_values := 0%Qc |}.

Definition png (v : Qc) (rk : Z) : Raw.record :=
  {| Raw.year := 2022; Raw.class_num := 1; Raw.state_code := "PG";
     Raw.state_name := "Papua New Guinea"; Raw.subregion_name := "Melanesia";
     Raw.value_contribution_to_class := v;
     Raw.state_rank_per_class := rk; Raw.pct_missing_values := 0%Qc |}.

Definition samoa (yr : Z) (v : Qc) : Raw.record :=
  {| Raw.year := yr; Raw.class_num := 2; Raw.state_code := "WS";
     Raw.state_name := "Samoa"; Raw.subregion_name := "Polynesia";
     Raw.value_contribution_to_class := v;
     Raw.state_rank_per_class := 4; Raw.pct_missing_values := 0%Qc |}.

Definition sample : list Raw.record :=
  [fiji (Examples.q 1 4) 1; png (Examples.q 1 2) 2; fiji (Examples.q 1 4) 3;
   samoa 2021 0%Qc].

End RawExamples.

(** ** More vocabulary for the allocator *)

Module QuotaNotions.
Import Allocator.




End QuotaNotions.

(** The entries [renderChart] hands to the allocator for a bucket:
    [Object.entries(info).map(...)], then [entries.sort(...)].  Entries the
    comparison does not tell apart stay in the order of the enumeration. *)
Definition bucket_entries (localeCompare : string → string → Z)
    (b : gmap string Norm.state) : list Allocator.entry :=
  js_sort (Renderer.entry_before localeCompare) (Renderer.to_entry <$> entries_of b).

(** ** The page: waves, controls and their handlers

    The part of the document the script reads and writes is a record; a
    handler is a function on it, and [renderChart] may fail to return as
    [distributeWaves] may.  An event carries what its handler reads of it. *)

(** [wave.dataset]: [share] and [missing] are kept as the numbers the
    source prints with [toFixed(1)]. *)
Module Dataset.
Record t : Type := Make {
  state : string;
  subregion : string;
  share : Qc;
  rank : Z;
  missing : Qc
}.
End Dataset.

Module Page.

Definition DFLT_BG : string := "rgba(255,255,255,0.05)".

Definition STATE_COLORS : gmap string string :=
  list_to_map
    [("FJ", "#fdae6b"); ("PG", "#e6550d"); ("SB", "#7f2704"); ("VU", "#fd8d3c");
     ("NC", "#cb181d"); ("KI", "#3182bd"); ("MH", "#9ecae1"); ("FM", "#225ea8");
     ("NR", "#6baed6"); ("PW", "#bcbddc"); ("NU", "#f7fcb9"); ("WS", "#74c476");
     ("TO", "#006d2c"); ("TV", "#addd8e"); ("PF", "#87a96b"); ("CK", "#00a550")].

(** A [div.wave]: the background of its graphic, its [dataset], and the
    [animationPlayState] of its three animated layers ([None] while unset,
    [Some true] for [paused], [Some false] for [running]). *)
Record wave : Type := Wave {
  background : string;
  dataset : option Dataset.t;
  playState : option bool
}.

(** [createWaveElement(bg, dataAttrs)]; [None] stands for [{}].  An empty
    [stateName] is falsy. *)
Definition createWaveElement (bg : string) (dataAttrs : option Allocator.entry) : wave :=
  {| background := bg;
     dataset :=
       match dataAttrs with
       | Some e =>
           if decide (Allocator.stateName e = "") then None
           else Some {| Dataset.state := Allocator.stateName e;
                        Dataset.subregion := Allocator.subregion e;
                        Dataset.share := (Allocator.share e * Qc_of_Z 100)%Qc;
                        Dataset.rank := Allocator.rank e;
                        Dataset.missing := Allocator.missing e |}
       | None => None
       end;
     playState := None |}.

(** The waves the body of [entries.forEach(e => ...)] appends for one
    entry: [cnt] of them, none when [cnt] is not positive. *)
Definition waves_of (counts : gmap string Z) (e : Allocator.entry) : list wave :=
  let color := default DFLT_BG (STATE_COLORS !! Allocator.stateCode e) in
  let cnt := default 0 (counts !! Allocator.stateCode e) in
  replicate (Z.to_nat cnt) (createWaveElement color (Some e)).

(** One round of the [forEach]: the sea and the counter [placed]. *)
Definition place_entry (counts : gmap string Z) (acc : list wave * Z)
    (e : Allocator.entry) : list wave * Z :=
  (acc.1 ++ waves_of counts e, acc.2 + Z.of_nat (length (waves_of counts e))).

(** "place actual waves", then "fill remainder". *)
Definition place (entries : list Allocator.entry) (counts : gmap string Z) : list wave :=
  let acc := foldl (place_entry counts) ([], 0) entries in
  acc.1 ++ replicate (Z.to_nat (Renderer.WAVE_COUNT - acc.2))
                     (createWaveElement DFLT_BG None).

(** The state the handlers read and write: the variables [currentYear],
    [animationsPaused] and [wasPaused], the value of the class picker, the
    children of [#sea], [warning.hidden], the class [no-data] of the sea,
    what was last assigned to the text of the two buttons, and the class
    [active] of the info container. *)
Record page : Type := Build {
  currentYear : option Z;
  classValue : string;
  animationsPaused : bool;
  wasPaused : bool;
  sea : list wave;
  warning_hidden : bool;
  no_data : bool;
  yearToggle_text : option Z;
  toggleBtn_text : string;
  info_active : bool
}.

Definition set_sea (p : page) (s : list wave) (hidden nodata : bool) : page :=
  {| currentYear := currentYear p; classValue := classValue p;
     animationsPaused := animationsPaused p; wasPaused := wasPaused p;
     sea := s; warning_hidden := hidden; no_data := nodata;
     yearToggle_text := yearToggle_text p; toggleBtn_text := toggleBtn_text p;
     info_active := info_active p |}.

(** [el.style.animationPlayState = paused ? 'paused' : 'running'] on the
    layers of one wave. *)
Definition set_playState (paused : bool) (w : wave) : wave :=
  {| background := background w; dataset := dataset w; playState := Some paused |}.

(** [setAnimationState(paused)]. *)
Definition setAnimationState (paused : bool) (p : page) : page :=
  {| currentYear := currentYear p; classValue := classValue p;
     animationsPaused := animationsPaused p; wasPaused := wasPaused p;
     sea := set_playState paused <$> sea p;
     warning_hidden := warning_hidden p; no_data := no_data p;
     yearToggle_text := yearToggle_text p;
     toggleBtn_text := if paused then "➲" else "❙❙";
     info_active := info_active p |}.

Definition set_paused (p : page) (paused was : bool) (active : bool) : page :=
  {| currentYear := currentYear p; classValue := classValue p;
     animationsPaused := paused; wasPaused := was;
     sea := sea p; warning_hidden := warning_hidden p; no_data := no_data p;
     yearToggle_text := yearToggle_text p; toggleBtn_text := toggleBtn_text p;
     info_active := active |}.

Definition set_year (p : page) (y : option Z) : page :=
  {| currentYear := y; classValue := classValue p;
     animationsPaused := animationsPaused p; wasPaused := wasPaused p;
     sea := sea p; warning_hidden := warning_hidden p; no_data := no_data p;
     yearToggle_text := y; toggleBtn_text := toggleBtn_text p;
     info_active := info_active p |}.

Definition set_class (p : page) (c : string) : page :=
  {| currentYear := currentYear p; classValue := c;
     animationsPaused := animationsPaused p; wasPaused := wasPaused p;
     sea := sea p; warning_hidden := warning_hidden p; no_data := no_data p;
     yearToggle_text := yearToggle_text p; toggleBtn_text := toggleBtn_text p;
     info_active := info_active p |}.

(** [years.indexOf(y)]: the first position, [-1] when there is none. *)
Fixpoint indexOf (years : list Z) (y : Z) : Z :=
  match years with
  | [] => -1
  | x :: rest =>
      if decide (x = y) then 0
      else let i := indexOf rest y in if decide (i = -1) then -1 else i + 1
  end.

(** [years[(years.indexOf(currentYear) + 1) % years.length]].  An undefined
    year is found nowhere; with no year at all the index is [NaN] and the
    read gives [undefined]. *)
Definition next_year (years : list Z) (current : option Z) : option Z :=
  let i := match current with Some y => indexOf years y | None => -1 end in
  if decide (years = []) then None
  else years !! Z.to_nat (Z.rem (i + 1) (Z.of_nat (length years))).

Section Handlers.
Variable localeCompare : string → string → Z.
(** [const { byYearClass, years, classes } = aggregateAndNormalize(data)]. *)
Variable byYearClass : gmap string (gmap string Norm.state).
Variable years : list Z.

(** [`${currentYear}|${cls}`]. *)
Definition page_key (p : page) : string :=
  match currentYear p with Some y => pretty y | None => "undefined" end
  +:+ "|" +:+ classValue p.

(** [renderChart()], on the page. *)
Definition renderChart (fuel : nat) (p : page) : outcome page :=
  let info := default ∅ (byYearClass !! page_key p) in
  let entries := Renderer.to_entry <$> entries_of info in
  if decide (length entries = 0%nat) then Returned (set_sea p [] false true)
  else
    let entries := js_sort (Renderer.entry_before localeCompare) entries in
    outcome_map
      (λ counts,
         setAnimationState (animationsPaused p)
           (set_sea p (place entries counts) true false))
      (Allocator.distributeWaves fuel entries Renderer.WAVE_COUNT).

(** The events the page listens to. *)
Inductive event : Type :=
| YearClick
| ClassChange (value : string)
| ToggleClick
| KeyDown (in_text_field : bool) (code : string)
| InfoEnter
| InfoLeave (into_panel : bool)
| OverlayEnter.

Definition toggle (p : page) : page :=
  let paused := negb (animationsPaused p) in
  setAnimationState paused (set_paused p paused (wasPaused p) (info_active p)).

(** [closePanel()]. *)
Definition closePanel (p : page) : page :=
  setAnimationState (wasPaused p) (set_paused p (wasPaused p) (wasPaused p) false).

Definition handle (fuel : nat) (ev : event) (p : page) : outcome page :=
  match ev with
  | YearClick => renderChart fuel (set_year p (next_year years (currentYear p)))
  | ClassChange value => renderChart fuel (set_class p value)
  | ToggleClick => Returned (toggle p)
  | KeyDown in_text_field code =>
      if in_text_field then Returned p
      else if decide (code = "Space") then Returned (toggle p) else Returned p
  | InfoEnter =>
      Returned (setAnimationState true (set_paused p true (animationsPaused p) true))
  | InfoLeave into_panel =>
      if into_panel then Returned p else Returned (closePanel p)
  | OverlayEnter => Returned (closePanel p)
  end.

(** Events handled one after the other; a handler that does not return
    leaves nothing for the next one. *)
Fixpoint run (fuel : nat) (evs : list event) (p : page) : outcome page :=
  match evs with
  | [] => Returned p
  | ev :: rest =>
      match handle fuel ev p with
      | Returned p' => run fuel rest p'
      | Threw e => Threw e
      | OutOfFuel => OutOfFuel
      end
  end.
End Handlers.

(** Every wave of the sea plays or rests as [animationsPaused] says; the
    toggle button shows the sign that goes with it. *)
Definition waves_follow_flag (p : page) : Prop :=
  Forall (λ w, playState w = Some (animationsPaused p)) (sea p).

Definition button_follows_flag (p : page) : Prop :=
  toggleBtn_text p = if animationsPaused p then "➲" else "❙❙".

(** Events that neither open nor close the info panel. *)
Definition beside_panel (ev : event) : bool :=
  match ev with
  | InfoEnter | OverlayEnter | InfoLeave false => false
  | _ => true
  end.

(** [onWaveMove(e)]: the [left] and [top] given to the tooltip, in pixels,
    from the width and height of the tooltip, the width of the window and
    the position of the pointer; [0.05] is the exact twentieth. *)
Definition onWaveMove (tw th vw pageX pageY : Qc) : Qc * Qc :=
  let edge := (vw * Q2Qc (5 # 100))%Qc in
  let left := (pageX - tw / Qc_of_Z 2)%Qc in
  let top := (pageY - th)%Qc in
  let left := if decide (left < edge)%Qc then edge else left in
  let left := if decide (vw - edge < left + tw)%Qc then (vw - tw - edge)%Qc else left in
  (left, top).

End Page.

(** ** The morphing title *)

Module Morph.

Definition morphTexts : list string :=
  ["PACIFIC DATAVIZ 2025"; "data waves"; "tides of tomorrow";
   "oceans of opportunity"; "future currents"; "2050 is now."].

Definition MORPH_TIME : Qc := Qc_of_Z 2.
Definition COOLDOWN : Qc := Q2Qc (35 # 100).
Definition MAX_LOOPS : nat := 2.

(** The filter and opacity of the two text elements: as the stylesheet has
    them, as [setMorph(frac)] computes them from [frac], or as
    [doCooldown()] sets them (the second text opaque, the first one
    transparent, no filter). *)
Inductive look : Type :=
| FromStylesheet
| Morphing (frac : Qc)
| Cooled.

(** The variables of the section, what was last assigned to the text of the
    two elements ([None] for [undefined]), their look, and whether a call
    of [tickMorph] has been requested with [requestAnimationFrame]. *)
Record state : Type := Build {
  mi : nat;
  morph : Qc;
  cooldown : Qc;
  loops : nat;
  last : Qc;
  isMorphPaused : bool;
  text1 : option string;
  text2 : option string;
  style : look;
  requested : bool
}.

Definition set_mi (s : state) (n : nat) : state :=
  {| mi := n; morph := morph s; cooldown := cooldown s; loops := loops s;
     last := last s; isMorphPaused := isMorphPaused s; text1 := text1 s;
     text2 := text2 s; style := style s; requested := requested s |}.

Definition set_morph (s : state) (x : Qc) : state :=
  {| mi := mi s; morph := x; cooldown := cooldown s; loops := loops s;
     last := last s; isMorphPaused := isMorphPaused s; text1 := text1 s;
     text2 := text2 s; style := style s; requested := requested s |}.

Definition set_cooldown (s : state) (x : Qc) : state :=
  {| mi := mi s; morph := morph s; cooldown := x; loops := loops s;
     last := last s; isMorphPaused := isMorphPaused s; text1 := text1 s;
     text2 := text2 s; style := style s; requested := requested s |}.

Definition set_loops (s : state) (n : nat) : state :=
  {| mi := mi s; morph := morph s; cooldown := cooldown s; loops := n;
     last := last s; isMorphPaused := isMorphPaused s; text1 := text1 s;
     text2 := text2 s; style := style s; requested := requested s |}.

Definition set_last (s : state) (x : Qc) : state :=
  {| mi := mi s; morph := morph s; cooldown := cooldown s; loops := loops s;
     last := x; isMorphPaused := isMorphPaused s; text1 := text1 s;
     text2 := text2 s; style := style s; requested := requested s |}.

Definition set_isMorphPaused (s : state) (b : bool) : state :=
  {| mi := mi s; morph := morph s; cooldown := cooldown s; loops := loops s;
     last := last s; isMorphPaused := b; text1 := text1 s;
     text2 := text2 s; style := style s; requested := requested s |}.

Definition set_requested (s : state) (b : bool) : state :=
  {| mi := mi s; morph := morph s; cooldown := cooldown s; loops := loops s;
     last := last s; isMorphPaused := isMorphPaused s; text1 := text1 s;
     text2 := text2 s; style := style s; requested := b |}.

(** [setMorph(frac)]. *)
Definition setMorph (frac : Qc) (s : state) : state :=
  {| mi := mi s; morph := morph s; cooldown := cooldown s; loops := loops s;
     last := last s; isMorphPaused := isMorphPaused s;
     text1 := morphTexts !! mi s;
     text2 := morphTexts !! ((mi s + 1) `mod` length morphTexts)%nat;
     style := Morphing frac; requested := requested s |}.

(** [doCooldown()]. *)
Definition doCooldown (s : state) : state :=
  {| mi := mi s; morph := 0%Qc; cooldown := cooldown s; loops := loops s;
     last := last s; isMorphPaused := isMorphPaused s; text1 := text1 s;
     text2 := text2 s; style := Cooled; requested := requested s |}.

(** [requestAnimationFrame(tickMorph)]. *)
Definition requestAnimationFrame (s : state) : state := set_requested s true.

(** The variables as the script initializes them, [last] being the time
    [now] of that moment in seconds, followed by [initMorph()]. *)
Definition initMorph (now : Qc) : state :=
  let mi := (length morphTexts - 1)%nat in
  {| mi := mi; morph := 0%Qc; cooldown := COOLDOWN; loops := 0%nat;
     last := now; isMorphPaused := false;
     text1 := morphTexts !! mi;
     text2 := morphTexts !! ((mi + 1) `mod` length morphTexts)%nat;
     style := FromStylesheet; requested := true |}.

(** [tickMorph(nowMs)]. *)
Definition tickMorph (nowMs : Qc) (s : state) : state :=
  let now := (nowMs / Qc_of_Z 1000)%Qc in
  let dt := (now - last s)%Qc in
  let s := set_last s now in
  if isMorphPaused s || bool_decide (MAX_LOOPS ≤ loops s)%nat then
    requestAnimationFrame (doCooldown (set_cooldown s COOLDOWN))
  else if decide (0 < cooldown s)%Qc then
    let s := set_cooldown s (cooldown s - dt)%Qc in
    if decide (cooldown s ≤ 0)%Qc then
      let s := set_mi s (mi s + 1)%nat in
      if decide (mi s `mod` length morphTexts = 0)%nat then
        let s := set_loops s (loops s + 1)%nat in
        if decide (MAX_LOOPS ≤ loops s)%nat then doCooldown s
        else requestAnimationFrame (doCooldown s)
      else requestAnimationFrame (doCooldown s)
    else requestAnimationFrame (doCooldown s)
  else
    let s := set_morph s (morph s + dt)%Qc in
    let frac := (morph s / MORPH_TIME)%Qc in
    if decide (1 ≤ frac)%Qc then
      requestAnimationFrame (setMorph 1%Qc (set_cooldown s COOLDOWN))
    else requestAnimationFrame (setMorph frac s).

(** What happens to the title: an animation frame at a time in
    milliseconds, the pointer entering or leaving the container. *)
Inductive event : Type :=
| Frame (nowMs : Qc)
| MouseEnter
| MouseLeave.

(** A frame calls [tickMorph] when a call has been requested, and that
    request is then used up. *)
Definition step (s : state) (ev : event) : state :=
  match ev with
  | Frame nowMs =>
      if requested s then tickMorph nowMs (set_requested s false) else s
  | MouseEnter => set_isMorphPaused s true
  | MouseLeave => set_isMorphPaused s false
  end.

Definition run (evs : list event) (s : state) : state := foldl step s evs.

(** What holds of the variables and of the texts whatever happened. *)
Definition in_bounds (s : state) : Prop :=
  (length morphTexts - 1 ≤ mi s ≤ MAX_LOOPS * length morphTexts)%nat
  ∧ loops s = (mi s `div` length morphTexts)%nat
  ∧ ((cooldown s ≤ 0)%Qc → (length morphTexts ≤ mi s)%nat).

Definition texts_settled (s : state) : Prop :=
  (text1 s = morphTexts !! (length morphTexts - 1)%nat ∨ text1 s = None)
  ∧ match style s with
    | Morphing frac =>
        text1 s = None
        ∧ text2 s = morphTexts !! ((mi s + 1) `mod` length morphTexts)%nat
        ∧ (frac ≤ 1)%Qc
    | _ => True
    end.

End Morph.

(** ** The text of the info panel *)

Module InfoPanel.

(** A string as JavaScript has it: a sequence of 16-bit code units. *)
Definition jsstring : Type := list N.

(** The class [\s] of a regular expression without flags: white space and
    line terminators. *)
Definition is_space (c : N) : bool :=
  ((9 <=? c) && (c <=? 13) || (c =? 32) || (c =? 160) || (c =? 5760)
   || (8192 <=? c) && (c <=? 8202) || (c =? 8232) || (c =? 8233)
   || (c =? 8239) || (c =? 8287) || (c =? 12288) || (c =? 65279))%N.

(** [/\S/.test(s)]. *)
Definition has_ink (s : jsstring) : bool := existsb (λ c, negb (is_space c)) s.

(** [/^\s+$/.test(p)]. *)
Definition all_space (p : jsstring) : bool :=
  match p with [] => false | _ => forallb is_space p end.

(** One match of [(\s+|[^\s]+)] being extended greedily: [cur] is what has
    been consumed of it, [sp] tells which alternative it is, and [s] is the
    rest of the subject.  The match ends where the class changes, and the
    next one starts there. *)
Fixpoint scan (sp : bool) (cur : jsstring) (s : jsstring) : list jsstring :=
  match s with
  | [] => [cur]
  | c :: s' =>
      if bool_decide (is_space c = sp) then scan sp (cur ++ [c]) s'
      else cur :: scan (is_space c) [c] s'
  end.

(** [s.match(/(\s+|[^\s]+)/g)], [None] for [null]. *)
Definition match_parts (s : jsstring) : option (list jsstring) :=
  match s with
  | [] => None
  | c :: s' => Some (scan (is_space c) [c] s')
  end.

(** What a fragment is made of: text nodes, and [span] elements with their
    [textContent] and the number of seconds of their [animationDelay]. *)
Inductive piece : Type :=
| TextNode (data : jsstring)
| Span (textContent : jsstring) (animationDelay : Qc).

Definition text_of (x : piece) : jsstring :=
  match x with TextNode d => d | Span t _ => t end.

(** [getTextNodes(root)], from the values of the text nodes below [root]
    in document order: the tree walker accepts those with a character that
    is not white space. *)
Definition getTextNodes (texts : list jsstring) : list jsstring :=
  filter (λ v, has_ink v = true) texts.

(** The body of [parts.forEach(p => ...)]: the fragment and [count]. *)
Definition wrap_part (step : Qc) (acc : list piece * nat) (p : jsstring)
  : list piece * nat :=
  if all_space p then (acc.1 ++ [TextNode p], acc.2)
  else (acc.1 ++ [Span p (Qc_of_Z (Z.of_nat acc.2) * step)%Qc], S acc.2).

(** The body of [getTextNodes(container).forEach(node => ...)]: what each
    node so far was replaced with ([None] when it was left in place), and
    [count]. *)
Definition wrap_node (step : Qc) (acc : list (option (list piece)) * nat)
    (nodeValue : jsstring) : list (option (list piece)) * nat :=
  match match_parts nodeValue with
  | None => (acc.1 ++ [None], acc.2)
  | Some parts =>
      let frag := foldl (wrap_part step) ([], acc.2) parts in
      (acc.1 ++ [Some frag.1], frag.2)
  end.

(** [wrapAllCharacters(container, step)]. *)
Definition wrapAllCharacters (step : Qc) (texts : list jsstring)
  : list (option (list piece)) :=
  (foldl (wrap_node step) ([], 0%nat) (getTextNodes texts)).1.

(** The delays of the spans of a fragment, in order. *)
Definition delays (frag : list piece) : list Qc :=
  omap (λ x, match x with Span _ d => Some d | TextNode _ => None end) frag.

(** A non-empty run of white space ([sp = true]) or of anything else. *)
Definition run_of (sp : bool) (p : jsstring) : Prop :=
  p ≠ [] ∧ Forall (λ c, is_space c = sp) p.

(** Runs whose classes alternate, the first one being of class [sp]. *)
Fixpoint alternating (sp : bool) (parts : list jsstring) : Prop :=
  match parts with
  | [] => True
  | p :: rest => run_of sp p ∧ alternating (negb sp) rest
  end.

(** A text node holds white space only, a span none. *)
Definition well_wrapped (x : piece) : Prop :=
  match x with
  | TextNode d => run_of true d
  | Span t _ => run_of false t
  end.

End InfoPanel.

Module PageExamples.

(** A page before its first chart, showing class 1 of the year 2021. *)
Definition fresh : Page.page :=
  {| Page.currentYear := Some 2021; Page.classValue := "1";
     Page.animationsPaused := false; Page.wasPaused := false;
     Page.sea := []; Page.warning_hidden := true; Page.no_data := false;
     Page.yearToggle_text := Some 2021; Page.toggleBtn_text := "❙❙";
     Page.info_active := false |}.

End PageExamples.

(** * Facts about the building blocks *)

(** Closed side conditions on sample inputs are settled by evaluation. *)
Ltac by_evaluation := vm_compute; done.
Ltac each_by_evaluation := repeat constructor; by_evaluation.
Ltac distinct_by_evaluation := apply (bool_decide_unpack _); by_evaluation.

Section JsSortFacts.
Context {A : Type} (before : A → A → bool).

Lemma js_insert_perm (x : A) (l : list A) : js_insert before x l ≡ₚ x :: l.
Proof.
  induction l as [|y l IH]; simpl; [done|].
  destruct (before x y); [done|].
  rewrite IH. apply Permutation_swap.
Qed.

Lemma js_sort_perm (l : list A) : js_sort before l ≡ₚ l.
Proof.
  induction l as [|x l IH]; simpl; [done|].
  by rewrite js_insert_perm, IH.
Qed.

Lemma js_sort_length (l : list A) : length (js_sort before l) = length l.
Proof. by rewrite js_sort_perm. Qed.
End JsSortFacts.

Section FromEntries.
Context `{Countable K} {V : Type}.
Implicit Types (pairs : list (K * V)) (m : gmap K V).

Lemma fromEntries_list_to_map pairs :
  fromEntries pairs = list_to_map (reverse pairs).
Proof.
  unfold fromEntries.
  induction pairs as [|p pairs IH] using rev_ind; [done|].
  rewrite foldl_snoc, reverse_snoc, IH. by destruct p.
Qed.

Lemma fromEntries_lookup pairs k v :
  NoDup pairs.*1 → (k, v) ∈ pairs → fromEntries pairs !! k = Some v.
Proof.
  intros Hnd Hin. rewrite fromEntries_list_to_map.
  apply elem_of_list_to_map_1.
  - by rewrite fmap_reverse, reverse_Permutation.
  - by rewrite elem_of_reverse.
Qed.

Lemma fromEntries_lookup_inv pairs k v :
  fromEntries pairs !! k = Some v → (k, v) ∈ pairs.
Proof.
  rewrite fromEntries_list_to_map. intros Hl.
  apply elem_of_list_to_map_2 in Hl. by rewrite elem_of_reverse in Hl.
Qed.

Lemma fromEntries_to_list pairs :
  NoDup pairs.*1 → map_to_list (fromEntries pairs) ≡ₚ pairs.
Proof.
  intros Hnd. rewrite fromEntries_list_to_map, map_to_list_to_map.
  - apply reverse_Permutation.
  - by rewrite fmap_reverse, reverse_Permutation.
Qed.

End FromEntries.

Lemma fromEntries_of_entries `{Countable K} {V W : Type} (f : V → W) (m : gmap K V) :
  fromEntries ((λ p, (p.1, f p.2)) <$> entries_of m) = f <$> m.
Proof.
  rewrite fromEntries_list_to_map. unfold entries_of.
  rewrite <- fmap_reverse.
  rewrite <- (list_to_map_to_list (f <$> m)).
  apply list_to_map_proper.
  - rewrite <- list_fmap_compose.
    rewrite (list_fmap_ext _ fst (reverse (map_to_list m)))
      by (by intros ? []).
    rewrite fmap_reverse, reverse_Permutation. apply NoDup_fst_map_to_list.
  - rewrite map_to_list_fmap, reverse_Permutation.
    apply Permutation_refl', list_fmap_ext. by intros ? [].
Qed.

(** * The redistribution loop *)

Module AllocatorFacts.
Import Allocator AllocatorNotions.

Implicit Types (fl r : list item) (it : item) (i j : nat) (delta c : Z).

Lemma walk_done fuel i fl : walk fuel i 0 fl = Returned fl.
Proof. by destruct fuel. Qed.

Lemma walk_act fuel i delta fl it :
  delta ≠ 0 → fl !! i = Some it → active delta it →
  walk (S fuel) i delta fl
  = walk fuel ((i + 1) mod length fl)%nat (toward0 delta) (<[i := advance delta it]> fl).
Proof.
  intros Hd Hi [Hs Ha]. simpl. rewrite Hi. unfold toward0, advance.
  repeat case_decide; try done; lia.
Qed.

Lemma walk_skip fuel i delta fl it :
  delta ≠ 0 → fl !! i = Some it → ¬ active delta it →
  walk (S fuel) i delta fl = walk fuel ((i + 1) mod length fl)%nat delta fl.
Proof.
  intros Hd Hi Ha. simpl. rewrite Hi. unfold active in Ha.
  repeat case_decide; try done; exfalso; apply Ha; split; auto.
Qed.

Lemma walk_oob fuel i delta fl :
  delta ≠ 0 → fl !! i = None → walk (S fuel) i delta fl = Threw TypeError.
Proof. intros Hd Hi. simpl. rewrite Hi. by case_decide. Qed.

Lemma sum_counts_perm l1 l2 : l1 ≡ₚ l2 → sum_counts l1 = sum_counts l2.
Proof. unfold sum_counts. induction 1; simpl; lia. Qed.

Lemma sum_counts_insert fl i it c :
  fl !! i = Some it →
  sum_counts (<[i := with_count it c]> fl) = sum_counts fl - count it + c.
Proof.
  revert i. induction fl as [|x fl IH]; intros [|i] Hi; simplify_eq/=.
  - lia.
  - rewrite (IH i Hi). lia.
Qed.

Lemma ent_insert fl i it c :
  fl !! i = Some it → ent <$> <[i := with_count it c]> fl = ent <$> fl.
Proof.
  intros Hi. rewrite list_fmap_insert. simpl.
  apply list_insert_id. by rewrite list_lookup_fmap, Hi.
Qed.

Lemma countNZ_insert fl i it c :
  fl !! i = Some it → countNZ (<[i := with_count it c]> fl) = countNZ fl.
Proof. intros Hi. unfold countNZ. by rewrite ent_insert. Qed.

Lemma well_counted_insert fl i it c :
  well_counted fl → fl !! i = Some it → share (ent it) ≠ 0%Qc → 1 ≤ c →
  well_counted (<[i := with_count it c]> fl).
Proof.
  intros Hwc Hi Hs Hc. apply Forall_insert; [done|].
  unfold counted. simpl. by case_decide.
Qed.

Lemma well_counted_lookup fl i it :
  well_counted fl → fl !! i = Some it → counted it.
Proof. intros Hwc Hi. eapply Forall_lookup_1; eauto. Qed.

Lemma advance_ok fl i delta it :
  well_counted fl → fl !! i = Some it → active delta it →
  well_counted (<[i := advance delta it]> fl)
  ∧ sum_counts (<[i := advance delta it]> fl) + toward0 delta = sum_counts fl + delta
  ∧ ent <$> <[i := advance delta it]> fl = ent <$> fl.
Proof.
  intros Hwc Hi [Hs Ha].
  pose proof (well_counted_lookup _ _ _ Hwc Hi) as Hc.
  unfold counted in Hc. case_decide; [done|].
  unfold advance, toward0. split_and!.
  - apply well_counted_insert; try done. case_decide; lia.
  - rewrite sum_counts_insert by done. case_decide; lia.
  - by apply ent_insert.
Qed.

(** Whatever the loop returns keeps the entries, the counting discipline
    and the balance [sum of counts + delta]. *)
Lemma walk_returned fuel : ∀ i delta fl r,
  walk fuel i delta fl = Returned r → well_counted fl →
  well_counted r ∧ sum_counts r = sum_counts fl + delta ∧ ent <$> r = ent <$> fl.
Proof.
  induction fuel as [|fuel IH]; intros i delta fl r Hw Hwc.
  - simpl in Hw. case_decide; simplify_eq. split_and!; [done|lia|done].
  - destruct (decide (delta = 0)) as [->|Hd].
    { rewrite walk_done in Hw. simplify_eq. split_and!; [done|lia|done]. }
    destruct (fl !! i) as [it|] eqn:Hi; [|by rewrite walk_oob in Hw].
    destruct (decide (active delta it)) as [Ha|Ha].
    + rewrite (walk_act _ _ _ _ it) in Hw by done.
      destruct (advance_ok _ _ _ _ Hwc Hi Ha) as (Hwc' & Hsum & Hent).
      destruct (IH _ _ _ _ Hw Hwc') as (? & ? & ?).
      split_and!; [done|lia|congruence].
    + rewrite (walk_skip _ _ _ _ it) in Hw by done. eauto.
Qed.

(** From any position the loop comes to an active entry, provided there is
    one [d] places further round the array. *)
Lemma walk_reaches_active fl delta d : ∀ i,
  delta ≠ 0 → (i < length fl)%nat →
  (∃ it, fl !! ((i + d) mod length fl)%nat = Some it ∧ active delta it) →
  ∃ m j it, fl !! j = Some it ∧ active delta it ∧
    ∀ fuel, walk (m + S fuel) i delta fl
            = walk fuel ((j + 1) mod length fl)%nat (toward0 delta)
                   (<[j := advance delta it]> fl).
Proof.
  induction d as [|d IH]; intros i Hd Hi (it & Hit & Ha).
  - rewrite Nat.add_0_r, Nat.mod_small in Hit by done.
    exists 0%nat, i, it. split_and!; [done..|].
    intros fuel. by apply walk_act.
  - destruct (lookup_lt_is_Some_2 fl i Hi) as [x Hx].
    destruct (decide (active delta x)) as [Hax|Hax].
    + exists 0%nat, i, x. split_and!; [done..|].
      intros fuel. by apply walk_act.
    + destruct (IH ((i + 1) mod length fl)%nat Hd) as (m & j & y & Hy & Hay & Hrun).
      * apply Nat.mod_upper_bound. lia.
      * exists it. split; [|done].
        rewrite Nat.Div0.add_mod_idemp_l.
        by replace (i + 1 + d)%nat with (i + S d)%nat by lia.
      * exists (S m), j, y. split_and!; [done..|].
        intros fuel. simpl Nat.add.
        rewrite (walk_skip _ _ _ _ x) by done. apply Hrun.
Qed.

Lemma sum_counts_no_slack fl :
  well_counted fl → Forall (λ it, ¬ (share (ent it) ≠ 0%Qc ∧ 1 < count it)) fl →
  sum_counts fl = countNZ fl.
Proof.
  unfold countNZ, countNonzero, well_counted.
  induction fl as [|x fl IH]; intros Hwc Hno; [done|].
  apply Forall_cons in Hwc as [Hx Hwc]. apply Forall_cons in Hno as [Hnx Hno].
  specialize (IH Hwc Hno).
  change (sum_counts (x :: fl)) with (count x + sum_counts fl).
  unfold counted in Hx. rewrite fmap_cons, filter_cons.
  repeat case_decide; try done.
  - lia.
  - rewrite length_cons.
    assert (count x = 1) by (destruct (decide (1 < count x)); [by destruct Hnx|lia]).
    lia.
Qed.

Lemma can_finish_active fl delta :
  can_finish fl delta → delta ≠ 0 →
  ∃ j it, fl !! j = Some it ∧ active delta it.
Proof.
  intros (Hwc & Hpos & Hneg) Hd.
  destruct (decide (0 < delta)) as [Hp|Hp].
  - pose proof (Hpos Hp) as Hex.
    apply Exists_exists in Hex as (it & Hin & Hs).
    apply list_elem_of_lookup in Hin as [j Hj].
    exists j, it. split; [done|]. split; auto.
  - assert (delta < 0) as Hn by lia. specialize (Hneg Hn).
    destruct (decide (Exists (λ it, share (ent it) ≠ 0%Qc ∧ 1 < count it) fl))
      as [Hex|Hnex].
    + apply Exists_exists in Hex as (it & Hin & Hs & Hc).
      apply list_elem_of_lookup in Hin as [j Hj].
      exists j, it. split; [done|]. split; auto.
    + apply not_Exists_Forall in Hnex; [|apply _].
      rewrite (sum_counts_no_slack fl Hwc) in Hneg by done. lia.
Qed.

Lemma nonzero_transfer fl fl' :
  ent <$> fl' = ent <$> fl →
  Exists (λ it, share (ent it) ≠ 0%Qc) fl → Exists (λ it, share (ent it) ≠ 0%Qc) fl'.
Proof.
  intros He Hex. apply Exists_exists in Hex as (x & Hin & Hs).
  assert (ent x ∈ ent <$> fl') as Hin'.
  { rewrite He. by apply list_elem_of_fmap_2. }
  apply list_elem_of_fmap in Hin' as (y & Hy & Hin').
  apply Exists_exists. exists y. by rewrite <- Hy.
Qed.

Lemma can_finish_advance fl delta j it :
  can_finish fl delta → delta ≠ 0 → fl !! j = Some it → active delta it →
  can_finish (<[j := advance delta it]> fl) (toward0 delta).
Proof.
  intros (Hwc & Hpos & Hneg) Hd Hj Ha.
  destruct (advance_ok _ _ _ _ Hwc Hj Ha) as (Hwc' & Hsum & Hent).
  split_and!; [done|..].
  - unfold toward0. case_decide; [|lia]. intros _.
    apply (nonzero_transfer fl); [done|]. apply Hpos. lia.
  - unfold countNZ. rewrite Hent. fold (countNZ fl).
    unfold toward0 in *. case_decide; lia.
Qed.

(** The loop returns whenever it can finish. *)
Lemma walk_terminates n : ∀ delta fl i,
  Z.abs delta = Z.of_nat n → can_finish fl delta → (i < length fl)%nat →
  ∃ fuel r, walk fuel i delta fl = Returned r.
Proof.
  induction n as [|n IH]; intros delta fl i Hn Hcf Hi.
  - assert (delta = 0) as -> by lia. exists 0%nat, fl. apply walk_done.
  - assert (delta ≠ 0) as Hd by lia.
    destruct (can_finish_active _ _ Hcf Hd) as (j & it & Hj & Ha).
    destruct (walk_reaches_active fl delta (j + length fl - i) i Hd Hi)
      as (m & j' & it' & Hj' & Ha' & Hrun).
    { exists it. split; [|done].
      replace (i + (j + length fl - i))%nat with (j + 1 * length fl)%nat by lia.
      rewrite Nat.Div0.mod_add, Nat.mod_small; [done|].
      by eapply lookup_lt_Some. }
    destruct (IH (toward0 delta) (<[j' := advance delta it']> fl)
                 ((j' + 1) mod length fl)%nat) as (fuel & r & Hr).
    + unfold toward0. case_decide; lia.
    + by apply can_finish_advance.
    + rewrite length_insert. apply Nat.mod_upper_bound. lia.
    + exists (m + S fuel)%nat, r. by rewrite Hrun.
Qed.

End AllocatorFacts.

(** * [distributeWaves] as a whole *)

Module DistributeFacts.
Import Allocator AllocatorNotions AllocatorFacts.

Implicit Types (entries : list entry) (e : entry) (fl r : list item)
  (it : item) (i j : nat) (delta c B : Z) (m : gmap string Z).

Lemma distributeWaves_eq fuel entries B :
  distributeWaves fuel entries B
  = outcome_map finish (walk fuel 0 (delta0 B entries) (start B entries)).
Proof. done. Qed.

Lemma distributeWaves_returned fuel entries B m :
  distributeWaves fuel entries B = Returned m →
  ∃ r, walk fuel 0 (delta0 B entries) (start B entries) = Returned r ∧ m = finish r.
Proof.
  rewrite distributeWaves_eq. destruct (walk _ _ _ _) as [r| |]; [|done..].
  intros [= <-]. by exists r.
Qed.

Lemma start_perm B entries : start B entries ≡ₚ to_floored B <$> entries.
Proof. apply js_sort_perm. Qed.

Lemma ent_floored B entries : ent <$> (to_floored B <$> entries) = entries.
Proof. rewrite <- list_fmap_compose. apply list_fmap_id. Qed.

Lemma ent_start B entries : ent <$> start B entries ≡ₚ entries.
Proof. by rewrite start_perm, ent_floored. Qed.

Lemma floored_counted B e : (0 ≤ share e)%Qc → counted (to_floored B e).
Proof.
  intros Hs. unfold counted, to_floored, base_count. simpl.
  destruct (decide (share e = 0%Qc)) as [He|He].
  - rewrite He. by case_decide.
  - case_decide; [lia|].
    exfalso. apply He. apply Qcle_antisym; [|done]. by apply Qcnot_lt_le.
Qed.

Lemma start_well_counted B entries :
  shares_nonneg entries → well_counted (start B entries).
Proof.
  intros Hs. unfold well_counted. rewrite start_perm.
  apply Forall_fmap. eapply Forall_impl; [exact Hs|].
  intros e He. by apply floored_counted.
Qed.

Lemma start_balance B entries :
  sum_counts (start B entries) + delta0 B entries = B.
Proof. unfold delta0. rewrite (sum_counts_perm _ _ (start_perm B entries)). lia. Qed.

Lemma countNZ_start B entries :
  countNZ (start B entries) = Z.of_nat (countNonzero entries).
Proof. unfold countNZ, countNonzero. by rewrite ent_start. Qed.

Lemma countNZ_le_sum fl : well_counted fl → countNZ fl ≤ sum_counts fl.
Proof.
  unfold countNZ, countNonzero, well_counted.
  induction fl as [|x fl IH]; intros Hwc; [done|].
  apply Forall_cons in Hwc as [Hx Hwc]. specialize (IH Hwc).
  change (sum_counts (x :: fl)) with (count x + sum_counts fl).
  unfold counted in Hx. rewrite fmap_cons, filter_cons.
  repeat case_decide; try done; rewrite ?length_cons; lia.
Qed.

(** The array the loop returns. *)
Lemma result_facts fuel entries B r :
  shares_nonneg entries →
  walk fuel 0 (delta0 B entries) (start B entries) = Returned r →
  well_counted r ∧ sum_counts r = B ∧ ent <$> r ≡ₚ entries.
Proof.
  intros Hs Hw.
  destruct (walk_returned _ _ _ _ _ Hw (start_well_counted B _ Hs)) as (Hwc & Hsum & Hent).
  split_and!; [done|..].
  - rewrite Hsum. apply start_balance.
  - rewrite Hent. apply ent_start.
Qed.

Lemma finish_pairs_fst r :
  ((λ x, (stateCode (ent x), count x)) <$> r).*1 = stateCode <$> (ent <$> r).
Proof. rewrite <- !list_fmap_compose. done. Qed.

Lemma finish_lookup entries r it :
  NoDup (stateCode <$> entries) → ent <$> r ≡ₚ entries → it ∈ r →
  finish r !! stateCode (ent it) = Some (count it).
Proof.
  intros Hnd Hp Hin. apply fromEntries_lookup.
  - by rewrite finish_pairs_fst, Hp.
  - apply list_elem_of_fmap. by exists it.
Qed.

Lemma foldl_Zadd (l : list Z) (a : Z) : foldl Z.add a l = a + foldr Z.add 0 l.
Proof. revert a. induction l as [|x l IH]; intros a; simpl; [lia|]. rewrite IH. lia. Qed.

Lemma foldr_Zadd_perm (l1 l2 : list Z) :
  l1 ≡ₚ l2 → foldr Z.add 0 l1 = foldr Z.add 0 l2.
Proof. induction 1; simpl; lia. Qed.

Lemma finish_pairs_snd r :
  ((λ x, (stateCode (ent x), count x)) <$> r).*2 = count <$> r.
Proof. rewrite <- !list_fmap_compose. done. Qed.

Lemma sum_counts_foldr r : foldr Z.add 0 (count <$> r) = sum_counts r.
Proof.
  unfold sum_counts. induction r as [|x r IH]; [done|].
  rewrite fmap_cons. cbn [foldr]. by rewrite IH.
Qed.

Lemma finish_sum entries r :
  NoDup (stateCode <$> entries) → ent <$> r ≡ₚ entries →
  sum_values (finish r) = sum_counts r.
Proof.
  intros Hnd Hp. unfold sum_values, values_of, finish.
  rewrite foldl_Zadd, <- sum_counts_foldr, <- finish_pairs_snd. simpl.
  apply foldr_Zadd_perm, fmap_Permutation, fromEntries_to_list.
  by rewrite finish_pairs_fst, Hp.
Qed.

(** Feasible inputs with somebody to serve make the loop return. *)
Lemma distributeWaves_returns entries B :
  shares_nonneg entries → (countNonzero entries ≤ Z.to_nat B)%nat →
  (0 < countNonzero entries)%nat →
  ∃ fuel r, walk fuel 0 (delta0 B entries) (start B entries) = Returned r.
Proof.
  intros Hs Hfeas Hpos.
  assert (Exists (λ it, share (ent it) ≠ 0%Qc) (start B entries)) as Hex.
  { unfold countNonzero in Hpos.
    destruct (filter _ entries) as [|e l] eqn:Hf; [simpl in Hpos; lia|].
    assert (e ∈ filter (λ e, share e ≠ 0%Qc) entries) as Hin by (rewrite Hf; left).
    apply list_elem_of_filter in Hin as [Hne Hin].
    assert (e ∈ ent <$> start B entries) as Hin' by by rewrite ent_start.
    apply list_elem_of_fmap in Hin' as (it & -> & Hit).
    apply Exists_exists. by exists it. }
  apply (walk_terminates (Z.to_nat (Z.abs (delta0 B entries)))).
  - lia.
  - split_and!; [by apply start_well_counted|done|].
    intros Hneg. rewrite countNZ_start.
    pose proof (start_balance B entries). lia.
  - apply Exists_exists in Hex as (it & Hin & _).
    destruct (start B entries); [by apply elem_of_nil in Hin|simpl; lia].
Qed.

(** With only zero shares the loop has nobody to give to. *)
Lemma walk_all_zero fuel : ∀ i delta fl,
  Forall (λ it, share (ent it) = 0%Qc) fl → delta ≠ 0 → (i < length fl)%nat →
  walk fuel i delta fl = OutOfFuel.
Proof.
  induction fuel as [|fuel IH]; intros i delta fl Hz Hd Hi.
  - simpl. by case_decide.
  - destruct (lookup_lt_is_Some_2 fl i Hi) as [x Hx].
    rewrite (walk_skip _ _ _ _ x); [|done..|].
    + apply IH; [done..|]. apply Nat.mod_upper_bound. lia.
    + intros [Hne _]. apply Hne. eapply Forall_lookup_1 in Hz; eauto.
Qed.

(** With more non-zero shares than units the balance stays negative. *)
Lemma walk_infeasible B fuel : ∀ i delta fl,
  well_counted fl → sum_counts fl + delta = B → B < countNZ fl →
  (i < length fl)%nat → walk fuel i delta fl = OutOfFuel.
Proof.
  induction fuel as [|fuel IH]; intros i delta fl Hwc Hbal Hk Hi;
    pose proof (countNZ_le_sum fl Hwc) as Hle;
    assert (delta ≠ 0) as Hd by lia.
  - simpl. by case_decide.
  - destruct (lookup_lt_is_Some_2 fl i Hi) as [x Hx].
    assert ((i + 1) mod length fl < length fl)%nat as Hi'
      by (apply Nat.mod_upper_bound; lia).
    destruct (decide (active delta x)) as [Ha|Ha].
    + rewrite (walk_act _ _ _ _ x) by done.
      destruct (advance_ok _ _ _ _ Hwc Hx Ha) as (Hwc' & Hsum & Hent).
      apply IH; [done|lia| |by rewrite length_insert].
      unfold countNZ. by rewrite Hent.
    + rewrite (walk_skip _ _ _ _ x) by done. by apply IH.
Qed.

Lemma walk_empty fuel delta r : delta ≠ 0 → walk fuel 0 delta [] ≠ Returned r.
Proof. intros Hd. destruct fuel; simpl; by case_decide. Qed.

End DistributeFacts.

(** * The first pass of [aggregateAndNormalize] *)

Module AggregateFacts.
Import Aggregator AggregatorNotions.

Implicit Types (raw ms : list Raw.record) (d : Raw.record) (acc : pass1)
  (yr cls : Z) (sc : string) (st : Agg.state).

Lemma aggregate_snoc raw d : aggregate (raw ++ [d]) = visit (aggregate raw) d.
Proof. unfold aggregate. by rewrite foldl_snoc. Qed.

Lemma lookup_bucket_visit acc d yr cls :
  lookup_bucket (visit acc d) yr cls
  = if decide (Raw.year d = yr ∧ Raw.class_num d = cls)
    then Some (<[Raw.state_code d :=
                   absorb (lookup_state acc yr cls (Raw.state_code d)) d]>
                 (default ∅ (lookup_bucket acc yr cls)))
    else lookup_bucket acc yr cls.
Proof.
  unfold lookup_state, lookup_bucket, visit. simpl.
  destruct (decide (Raw.year d = yr)) as [<-|Hy].
  - rewrite lookup_insert_eq. simpl.
    destruct (decide (Raw.class_num d = cls)) as [<-|Hc].
    + rewrite lookup_insert_eq, decide_True by done.
      destruct (byYearClassState acc !! Raw.year d) as [classes|]; simpl.
      * destruct (classes !! Raw.class_num d) as [bucket|]; simpl; [done|].
        by rewrite lookup_empty.
      * by rewrite !lookup_empty.
    + rewrite lookup_insert_ne by done. rewrite decide_False by (by intros [_ ?]).
      destruct (byYearClassState acc !! Raw.year d) as [classes|]; simpl; [done|].
      by rewrite lookup_empty.
  - rewrite lookup_insert_ne by done. by rewrite decide_False by (by intros [? _]).
Qed.

Lemma lookup_state_visit acc d yr cls sc :
  lookup_state (visit acc d) yr cls sc
  = if decide (matches yr cls sc d)
    then Some (absorb (lookup_state acc yr cls sc) d)
    else lookup_state acc yr cls sc.
Proof.
  unfold lookup_state at 1. rewrite lookup_bucket_visit. unfold matches.
  destruct (decide (Raw.year d = yr ∧ Raw.class_num d = cls)) as [[Hy Hc]|Hyc]; simpl.
  - destruct (decide (Raw.state_code d = sc)) as [<-|Hs].
    + by rewrite lookup_insert_eq, decide_True.
    + rewrite lookup_insert_ne by done.
      rewrite decide_False by (by intros (_ & _ & ?)).
      unfold lookup_state. destruct (lookup_bucket acc yr cls); simpl; [done|].
      apply lookup_empty.
  - rewrite decide_False; [done|]. intros (? & ? & _). by apply Hyc.
Qed.

(** The accumulator of a key is built from the records of that key alone,
    in input order. *)
Lemma lookup_state_aggregate raw yr cls sc :
  lookup_state (aggregate raw) yr cls sc = absorb_all (filter (matches yr cls sc) raw).
Proof.
  induction raw as [|d raw IH] using rev_ind; [done|].
  rewrite aggregate_snoc, lookup_state_visit, filter_app, IH.
  rewrite filter_cons, filter_nil.
  case_decide; [|by rewrite app_nil_r].
  unfold absorb_all. by rewrite foldl_snoc.
Qed.

Lemma sum_contributions_snoc ms d :
  sum_contributions (ms ++ [d])
  = (sum_contributions ms + Raw.value_contribution_to_class d)%Qc.
Proof.
  unfold sum_contributions. induction ms as [|x ms IH]; simpl.
  - ring.
  - rewrite IH. ring.
Qed.


Lemma absorb_all_nil : absorb_all [] = None.
Proof. done. Qed.

(** Sum over all records of the key; rank and missing from the last one;
    names from the first one. *)
Lemma absorb_all_snoc ms d :
  ∃ st, absorb_all (ms ++ [d]) = Some st
    ∧ Agg.rawSum st = sum_contributions (ms ++ [d])
    ∧ Agg.rank st = Raw.state_rank_per_class d
    ∧ Agg.missing st = Raw.pct_missing_values d
    ∧ Agg.stateName st = Raw.state_name (default d (head ms))
    ∧ Agg.subregion st = Raw.subregion_name (default d (head ms)).
Proof.
  revert d. induction ms as [|x ms IH] using rev_ind; intros d.
  - eexists. split; [done|]. simpl. split_and!; try done. ring.
  - destruct (IH x) as (st & Hst & Hsum & _ & _ & Hn & Hs).
    unfold absorb_all in *. rewrite foldl_snoc, Hst.
    eexists. split; [done|]. simpl.
    rewrite Hsum, (sum_contributions_snoc (ms ++ [x])).
    split_and!; try done.
    + rewrite Hn. by destruct ms.
    + rewrite Hs. by destruct ms.
Qed.

Lemma rawSumAt_aggregate raw yr cls sc :
  rawSumAt (aggregate raw) yr cls sc = sum_contributions (filter (matches yr cls sc) raw).
Proof.
  unfold rawSumAt. rewrite lookup_state_aggregate.
  destruct (filter _ raw) as [|x ms _] using rev_ind; [done|].
  destruct (absorb_all_snoc ms x) as (st & -> & Hsum & _). exact Hsum.
Qed.

Lemma lookup_state_is_Some raw yr cls sc :
  is_Some (lookup_state (aggregate raw) yr cls sc)
  ↔ ∃ d, d ∈ raw ∧ matches yr cls sc d.
Proof.
  rewrite lookup_state_aggregate. split.
  - destruct (filter _ raw) as [|x ms] eqn:Hf; [by intros [? ?]|]. intros _.
    assert (x ∈ filter (matches yr cls sc) raw) as Hx by (rewrite Hf; left).
    apply list_elem_of_filter in Hx as [? ?]. by exists x.
  - intros (d & Hin & Hm).
    assert (d ∈ filter (matches yr cls sc) raw) as Hd by by apply list_elem_of_filter.
    destruct (filter _ raw) as [|x ms _] using rev_ind; [by apply elem_of_nil in Hd|].
    destruct (absorb_all_snoc ms x) as (st & -> & _). eauto.
Qed.

(** ** The sets of years and classes *)

Lemma yearsSet_visit acc d : yearsSet (visit acc d) = set_add (Raw.year d) (yearsSet acc).
Proof. done. Qed.

Lemma classesSet_visit acc d :
  classesSet (visit acc d) = set_add (Raw.class_num d) (classesSet acc).
Proof. done. Qed.

Lemma set_add_elem x y (s : list Z) : y ∈ set_add x s ↔ y = x ∨ y ∈ s.
Proof.
  unfold set_add. case_decide.
  - split; [by right|]. by intros [->|?].
  - rewrite elem_of_app, list_elem_of_singleton. tauto.
Qed.

Lemma set_add_NoDup x (s : list Z) : NoDup s → NoDup (set_add x s).
Proof.
  unfold set_add. intros Hs. case_decide; [done|].
  apply NoDup_app. split_and!; [done| |apply NoDup_singleton].
  intros y Hy ->%list_elem_of_singleton. done.
Qed.

Lemma yearsSet_spec raw :
  NoDup (yearsSet (aggregate raw))
  ∧ ∀ y, y ∈ yearsSet (aggregate raw) ↔ ∃ d, d ∈ raw ∧ Raw.year d = y.
Proof.
  induction raw as [|d raw [IHn IHe]] using rev_ind.
  - split; [constructor|]. intros y. split; [by intros ?%elem_of_nil|].
    by intros (d & ?%elem_of_nil & _).
  - rewrite aggregate_snoc, yearsSet_visit. split; [by apply set_add_NoDup|].
    intros y. rewrite set_add_elem, IHe. split.
    + intros [->|(d' & Hd' & Hy)].
      * exists d. split; [|done]. apply elem_of_app. right. by left.
      * exists d'. split; [|done]. apply elem_of_app. by left.
    + intros (d' & [Hd'| ->%list_elem_of_singleton]%elem_of_app & Hy).
      * right. by exists d'.
      * by left.
Qed.

Lemma classesSet_spec raw :
  NoDup (classesSet (aggregate raw))
  ∧ ∀ c, c ∈ classesSet (aggregate raw) ↔ ∃ d, d ∈ raw ∧ Raw.class_num d = c.
Proof.
  induction raw as [|d raw [IHn IHe]] using rev_ind.
  - split; [constructor|]. intros y. split; [by intros ?%elem_of_nil|].
    by intros (d & ?%elem_of_nil & _).
  - rewrite aggregate_snoc, classesSet_visit. split; [by apply set_add_NoDup|].
    intros y. rewrite set_add_elem, IHe. split.
    + intros [->|(d' & Hd' & Hy)].
      * exists d. split; [|done]. apply elem_of_app. right. by left.
      * exists d'. split; [|done]. apply elem_of_app. by left.
    + intros (d' & [Hd'| ->%list_elem_of_singleton]%elem_of_app & Hy).
      * right. by exists d'.
      * by left.
Qed.

Lemma js_insert_leb_sorted x (l : list Z) :
  StronglySorted Z.le l → StronglySorted Z.le (js_insert Z.leb x l).
Proof.
  induction 1 as [|y l Hl IH Hy]; simpl.
  - repeat constructor.
  - destruct (Z.leb_spec x y).
    + constructor; [by constructor|].
      constructor; [done|]. eapply Forall_impl; [exact Hy|]. intros ??; lia.
    + constructor; [done|].
      rewrite js_insert_perm. constructor; [lia|done].
Qed.

Lemma sort_numeric_sorted (l : list Z) : StronglySorted Z.le (sort_numeric l).
Proof.
  unfold sort_numeric, js_sort. induction l as [|x l IH]; simpl; [constructor|].
  by apply js_insert_leb_sorted.
Qed.

Lemma sort_numeric_perm (l : list Z) : sort_numeric l ≡ₚ l.
Proof. apply js_sort_perm. Qed.

Lemma sorted_distinct (l : list Z) :
  StronglySorted Z.le l → NoDup l → StronglySorted Z.lt l.
Proof.
  induction 1 as [|x l Hl IH Hx]; intros Hnd; [constructor|].
  apply NoDup_cons in Hnd as [Hnx Hnd].
  constructor; [by apply IH|].
  apply Forall_forall. intros y Hy.
  assert (x ≤ y) by (eapply Forall_forall in Hx; eauto).
  assert (x ≠ y) by (by intros ->). lia.
Qed.

Lemma sort_numeric_same (l1 l2 : list Z) :
  NoDup l1 → NoDup l2 → (∀ x, x ∈ l1 ↔ x ∈ l2) → sort_numeric l1 = sort_numeric l2.
Proof.
  intros H1 H2 Heq.
  apply (StronglySorted_unique Z.le); [apply sort_numeric_sorted..|].
  rewrite !sort_numeric_perm. by apply NoDup_Permutation.
Qed.

End AggregateFacts.

(** * The second pass of [aggregateAndNormalize] *)

Module NormalizeFacts.
Import Aggregator AggregatorNotions AggregateFacts.

Implicit Types (raw : list Raw.record) (yr cls : Z) (sc : string)
  (states : gmap string Agg.state) (st : Agg.state)
  (nested : gmap Z (gmap Z (gmap string Agg.state))).

(** ** The bucket key determines the year and the class *)

Lemma pretty_N_go_bar_free (x : N) : ∀ s, bar_free s → bar_free (pretty_N_go x s).
Proof.
  induction (N.lt_wf_0 x) as [x _ IH]; intros s Hs.
  assert (x = 0 ∨ 0 < x)%N as [->|Hx] by lia.
  - by rewrite pretty_N_go_0.
  - rewrite pretty_N_go_step by done. apply IH.
    + by apply N.div_lt.
    + split; [|done]. unfold pretty_N_char. by repeat case_match.
Qed.

Lemma pretty_N_bar_free (x : N) : bar_free (pretty x).
Proof.
  unfold pretty, pretty_N. case_decide.
  - by split.
  - by apply pretty_N_go_bar_free.
Qed.

Lemma pretty_Z_bar_free (z : Z) : bar_free (pretty z).
Proof.
  unfold pretty, pretty_Z. destruct z as [|p|p].
  - by split.
  - apply pretty_N_bar_free.
  - split; [done|]. apply pretty_N_bar_free.
Qed.

Lemma bar_split (s1 : string) : ∀ s2 t1 t2,
  bar_free s1 → bar_free s2 →
  s1 +:+ "|" +:+ t1 = s2 +:+ "|" +:+ t2 → s1 = s2 ∧ t1 = t2.
Proof.
  induction s1 as [|c s1 IH]; intros [|c' s2] t1 t2 H1 H2 Heq; simpl in *.
  - by simplify_eq.
  - destruct H2 as [Hc _]. by simplify_eq.
  - destruct H1 as [Hc _]. by simplify_eq.
  - destruct H1 as [_ H1], H2 as [_ H2]. simplify_eq.
    destruct (IH s2 t1 t2) as [-> ->]; done.
Qed.

Lemma bucket_key_inj yr cls yr' cls' :
  bucket_key yr cls = bucket_key yr' cls' → yr = yr' ∧ cls = cls'.
Proof.
  unfold bucket_key. intros Heq.
  apply bar_split in Heq as [Hy Hc]; [|apply pretty_Z_bar_free..].
  split; by apply (inj pretty).
Qed.

(** ** What is stored under a bucket key *)

Lemma fromEntries_lookup_unique `{Countable K} {V : Type}
    (pairs : list (K * V)) (k : K) (v : V) :
  (k, v) ∈ pairs → (∀ v', (k, v') ∈ pairs → v' = v) →
  fromEntries pairs !! k = Some v.
Proof.
  intros Hin Huniq. rewrite fromEntries_list_to_map.
  destruct (list_to_map (reverse pairs) !! k) as [v'|] eqn:Hl.
  - apply elem_of_list_to_map_2 in Hl. rewrite elem_of_reverse in Hl.
    by rewrite (Huniq v' Hl).
  - apply not_elem_of_list_to_map_2 in Hl. exfalso. apply Hl.
    rewrite fmap_reverse, elem_of_reverse.
    apply list_elem_of_fmap. by exists (k, v).
Qed.

Lemma fromEntries_lookup_None `{Countable K} {V : Type}
    (pairs : list (K * V)) (k : K) :
  k ∉ pairs.*1 → fromEntries pairs !! k = None.
Proof.
  intros Hk. rewrite fromEntries_list_to_map.
  apply not_elem_of_list_to_map_1. by rewrite fmap_reverse, elem_of_reverse.
Qed.

Lemma normalize_flat nested : normalize nested = fromEntries (flat nested).
Proof.
  unfold normalize, fromEntries, flat. generalize (∅ : gmap string (gmap string Norm.state)).
  induction (entries_of nested) as [|yc l IH]; intros a; [done|].
  rewrite bind_cons, foldl_app, foldl_fmap. simpl. apply IH.
Qed.

Lemma elem_of_flat nested k b :
  (k, b) ∈ flat nested
  ↔ ∃ yr classes cls states,
      nested !! yr = Some classes ∧ classes !! cls = Some states
      ∧ k = bucket_key yr cls ∧ b = normalizeBucket states.
Proof.
  unfold flat, entries_of. rewrite list_elem_of_bind. split.
  - intros ([yr classes] & Hin & Hyc). simpl in Hin.
    apply list_elem_of_fmap in Hin as ([cls states] & Heq & Hcs). simpl in Heq.
    apply elem_of_map_to_list in Hyc, Hcs. simplify_eq.
    by exists yr, classes, cls, states.
  - intros (yr & classes & cls & states & Hyr & Hcls & -> & ->).
    exists (yr, classes). split; [|by apply elem_of_map_to_list].
    apply list_elem_of_fmap. exists (cls, states).
    split; [done|]. by apply elem_of_map_to_list.
Qed.

Lemma normalize_lookup nested yr cls :
  normalize nested !! bucket_key yr cls
  = normalizeBucket <$> (nested !! yr ≫= λ classes, classes !! cls).
Proof.
  rewrite normalize_flat.
  destruct (nested !! yr ≫= λ classes, classes !! cls) as [states|] eqn:Hl; simpl.
  - apply bind_Some in Hl as (classes & Hyr & Hcls).
    apply fromEntries_lookup_unique.
    + apply elem_of_flat. by exists yr, classes, cls, states.
    + intros b (yr' & classes' & cls' & states' & Hyr' & Hcls' & Hk & ->)%elem_of_flat.
      apply bucket_key_inj in Hk as [<- <-]. by simplify_eq.
  - apply fromEntries_lookup_None.
    intros ([k b] & Hk & (yr' & classes' & cls' & states' & Hyr' & Hcls' & -> & ->)%elem_of_flat)%list_elem_of_fmap.
    simpl in Hk. apply bucket_key_inj in Hk as [-> ->].
    rewrite Hyr' in Hl. simpl in Hl. congruence.
Qed.

Lemma byYearClass_lookup raw yr cls :
  byYearClass (aggregateAndNormalize raw) !! bucket_key yr cls
  = normalizeBucket <$> lookup_bucket (aggregate raw) yr cls.
Proof. apply normalize_lookup. Qed.

Lemma normalizeBucket_fmap states :
  normalizeBucket states = normalizeState (divisor states) <$> states.
Proof. apply fromEntries_of_entries. Qed.

Lemma normalizeBucket_lookup states sc :
  normalizeBucket states !! sc = normalizeState (divisor states) <$> states !! sc.
Proof. by rewrite normalizeBucket_fmap, lookup_fmap. Qed.

(** ** Sums over a bucket *)

Lemma foldl_qsum {A : Type} (g : A → Qc) (l : list A) (a : Qc) :
  foldl (λ s x, (s + g x)%Qc) a l = (a + qsum (g <$> l))%Qc.
Proof.
  revert a. induction l as [|x l IH]; intros a.
  - simpl. ring.
  - rewrite fmap_cons. cbn [foldl qsum foldr]. rewrite IH. unfold qsum. ring.
Qed.

Lemma qsum_perm (l1 l2 : list Qc) : l1 ≡ₚ l2 → qsum l1 = qsum l2.
Proof.
  unfold qsum. induction 1 as [|x l1 l2 _ IH|x y l|l1 l2 l3 _ IH1 _ IH2]; simpl.
  - done.
  - by rewrite IH.
  - ring.
  - by rewrite IH1.
Qed.

Lemma qsum_div (l : list Qc) (d : Qc) :
  qsum ((λ x, x / d)%Qc <$> l) = (qsum l / d)%Qc.
Proof.
  unfold qsum, Qcdiv. induction l as [|x l IH].
  - simpl. ring.
  - rewrite fmap_cons. cbn [foldr]. rewrite IH. ring.
Qed.

Lemma total_qsum states : total states = qsum (Agg.rawSum <$> values_of states).
Proof. unfold total. rewrite foldl_qsum. ring. Qed.

Lemma values_of_fmap {V W : Type} (f : V → W) (m : gmap string V) :
  values_of (f <$> m) ≡ₚ f <$> values_of m.
Proof.
  unfold values_of. rewrite map_to_list_fmap, <- !list_fmap_compose. done.
Qed.

Lemma sum_shares_normalizeBucket states :
  sum_shares (normalizeBucket states) = (total states / divisor states)%Qc.
Proof.
  unfold sum_shares. rewrite foldl_qsum, normalizeBucket_fmap.
  rewrite (qsum_perm _ _ (fmap_Permutation _ _ _ (values_of_fmap _ _))).
  rewrite <- list_fmap_compose, total_qsum, <- qsum_div, <- list_fmap_compose.
  unfold compose. simpl. ring.
Qed.

Lemma divisor_nonzero states : divisor states ≠ 0%Qc.
Proof. unfold divisor. by case_decide. Qed.

Lemma qsum_nonneg (l : list Qc) : Forall (λ x, (0 ≤ x)%Qc) l → (0 ≤ qsum l)%Qc.
Proof.
  unfold qsum. induction 1 as [|x l Hx _ IH]; simpl; [done|].
  by apply Qcplus_nonneg_nonneg.
Qed.

Lemma qsum_zero (l : list Qc) :
  Forall (λ x, (0 ≤ x)%Qc) l → qsum l = 0%Qc → Forall (λ x, x = 0%Qc) l.
Proof.
  induction 1 as [|x l Hx Hl IH]; intros Hsum; [constructor|].
  pose proof (qsum_nonneg l Hl) as Hq.
  change (qsum (x :: l)) with (x + qsum l)%Qc in Hsum.
  assert (x = 0%Qc) as Hx0.
  { apply Qcle_antisym; [|done].
    apply (Qcplus_le_mono_r _ _ (qsum l)). rewrite Hsum, Qcplus_0_l. done. }
  constructor; [done|]. apply IH. rewrite Hx0 in Hsum. by rewrite Qcplus_0_l in Hsum.
Qed.

Lemma sum_contributions_nonneg (ms : list Raw.record) :
  Forall (λ d, (0 ≤ Raw.value_contribution_to_class d)%Qc) ms →
  (0 ≤ sum_contributions ms)%Qc.
Proof.
  unfold sum_contributions. induction 1 as [|x l Hx _ IH]; simpl; [done|].
  by apply Qcplus_nonneg_nonneg.
Qed.

End NormalizeFacts.

(** * The claims about [distributeWaves] *)

Section AllocatorClaims.
Import Allocator AllocatorNotions AllocatorFacts DistributeFacts Examples.

Implicit Types (entries : list entry) (budget : Z).

(** Scenario 1: shares 0.5, 0.3, 0.2 and ten units split exactly. *)
Example distributeWaves_exact_split :
  counts_ABC (distributeWaves 0 exact_split 10) = Returned (Some 5, Some 3, Some 2).
Proof. by_evaluation. Qed.

(** Scenario 2: the unit left over goes to the largest remainder. *)
Example distributeWaves_one_left_over :
  counts_ABC (distributeWaves 1 one_left_over 10) = Returned (Some 4, Some 3, Some 3).
Proof. by_evaluation. Qed.

(** Scenario 3: a tiny share still gets its unit. *)
Example distributeWaves_tiny_share :
  counts_ABC (distributeWaves 0 tiny_share 10) = Returned (Some 1, Some 9, None).
Proof. by_evaluation. Qed.

Lemma feasible_result fuel entries budget m :
  shares_nonneg entries → NoDup (stateCode <$> entries) →
  distributeWaves fuel entries budget = Returned m →
  ∃ r, m = finish r ∧ well_counted r ∧ sum_counts r = budget ∧ ent <$> r ≡ₚ entries.
Proof.
  intros Hs Hnd (r & Hw & ->)%distributeWaves_returned.
  destruct (result_facts _ _ _ _ Hs Hw) as (Hwc & Hsum & Hent). by exists r.
Qed.

Lemma feasible_returns entries budget :
  shares_nonneg entries → Z.of_nat (countNonzero entries) ≤ budget →
  (0 < countNonzero entries)%nat →
  ∃ fuel m, distributeWaves fuel entries budget = Returned m.
Proof.
  intros Hs Hfeas Hpos.
  destruct (distributeWaves_returns entries budget) as (fuel & r & Hw); [done|lia|done|].
  exists fuel, (finish r). by rewrite distributeWaves_eq, Hw.
Qed.

(** C1. With shares that are not negative, a positive budget, no more
    non-zero shares than units, and one entry per state code, the counts of
    the object [distributeWaves] returns add up to the budget; and when some
    share is not zero the call does return such an object. *)
Theorem distributeWaves_sum_is_budget entries budget :
  shares_nonneg entries → 0 < budget →
  Z.of_nat (countNonzero entries) ≤ budget →
  NoDup (stateCode <$> entries) →
  (∀ fuel m, distributeWaves fuel entries budget = Returned m → sum_values m = budget)
  ∧ ((0 < countNonzero entries)%nat →
     ∃ fuel m, distributeWaves fuel entries budget = Returned m ∧ sum_values m = budget).
Proof.
  intros Hs Hb Hfeas Hnd.
  assert (∀ fuel m, distributeWaves fuel entries budget = Returned m →
                    sum_values m = budget) as Hsum.
  { intros fuel m Hm.
    destruct (feasible_result _ _ _ _ Hs Hnd Hm) as (r & -> & _ & Hsum & Hent).
    by rewrite (finish_sum entries). }
  split; [done|]. intros Hpos.
  destruct (feasible_returns entries budget) as (fuel & m & Hm); [done..|].
  exists fuel, m. eauto.
Qed.

Lemma distributeWaves_sum_is_budget_witness :
  shares_nonneg one_left_over ∧ 0 < 10
  ∧ Z.of_nat (countNonzero one_left_over) ≤ 10
  ∧ NoDup (stateCode <$> one_left_over)
  ∧ ∃ fuel m, distributeWaves fuel one_left_over 10 = Returned m ∧ sum_values m = 10.
Proof.
  assert (shares_nonneg one_left_over) as Hs by each_by_evaluation.
  assert (Z.of_nat (countNonzero one_left_over) ≤ 10) as Hf by by_evaluation.
  assert (NoDup (stateCode <$> one_left_over)) as Hnd
    by distinct_by_evaluation.
  split_and!; [done|lia|done|done|].
  apply (distributeWaves_sum_is_budget one_left_over 10 Hs); [lia|done|done|].
  vm_compute. lia.
Defined.

(** C3. Under the same conditions every entry with a positive share is
    given at least one unit, and an entry is given none exactly when its
    share is zero. *)
Theorem distributeWaves_at_least_one entries budget :
  shares_nonneg entries → 0 < budget →
  Z.of_nat (countNonzero entries) ≤ budget →
  NoDup (stateCode <$> entries) →
  (∀ fuel m, distributeWaves fuel entries budget = Returned m →
     ∀ e, e ∈ entries →
       ∃ c, m !! stateCode e = Some c
            ∧ ((0 < share e)%Qc → 1 ≤ c)
            ∧ (c = 0 ↔ share e = 0%Qc))
  ∧ ((0 < countNonzero entries)%nat →
     ∃ fuel m, distributeWaves fuel entries budget = Returned m).
Proof.
  intros Hs Hb Hfeas Hnd. split; [|by apply feasible_returns].
  intros fuel m Hm e He.
  destruct (feasible_result _ _ _ _ Hs Hnd Hm) as (r & -> & Hwc & _ & Hent).
  assert (e ∈ ent <$> r) as Hin by by rewrite Hent.
  apply list_elem_of_fmap in Hin as (it & -> & Hit).
  exists (count it). split; [by apply (finish_lookup entries)|].
  assert (counted it) as Hc by (eapply Forall_forall in Hwc; eauto).
  unfold counted in Hc. case_decide as Hz.
  - rewrite Hz. split; [by intros ?%Qclt_not_eq|done].
  - split; [done|]. split; [lia|done].
Qed.

Lemma distributeWaves_at_least_one_witness :
  shares_nonneg tiny_share ∧ 0 < 10
  ∧ Z.of_nat (countNonzero tiny_share) ≤ 10
  ∧ NoDup (stateCode <$> tiny_share)
  ∧ ∃ fuel m, distributeWaves fuel tiny_share 10 = Returned m.
Proof.
  assert (shares_nonneg tiny_share) as Hs by each_by_evaluation.
  assert (Z.of_nat (countNonzero tiny_share) ≤ 10) as Hf by by_evaluation.
  assert (NoDup (stateCode <$> tiny_share)) as Hnd
    by distinct_by_evaluation.
  split_and!; [done|lia|done|done|].
  apply (distributeWaves_at_least_one tiny_share 10 Hs); [lia|done|done|].
  vm_compute. lia.
Defined.

(** C4, as stated, fails.  A list whose shares are all zero meets every
    condition of the claim, and the loop never reaches [delta == 0]; so does
    the empty list, where the first read of [floored[i]] throws. *)
Lemma distributeWaves_zero_shares_never_return :
  (shares_nonneg only_zero ∧ 0 < 1
   ∧ Z.of_nat (countNonzero only_zero) ≤ 1
   ∧ ∀ fuel, distributeWaves fuel only_zero 1 = OutOfFuel)
  ∧ (shares_nonneg [] ∧ Z.of_nat (countNonzero []) ≤ 1
     ∧ ∀ fuel, distributeWaves (S fuel) [] 1 = Threw TypeError)
  ∧ ¬ (∀ entries budget,
         shares_nonneg entries → 0 < budget →
         Z.of_nat (countNonzero entries) ≤ budget →
         ∃ fuel m, distributeWaves fuel entries budget = Returned m).
Proof.
  assert (shares_nonneg only_zero) as Hs by each_by_evaluation.
  assert (Z.of_nat (countNonzero only_zero) ≤ 1) as Hf by by_evaluation.
  assert (∀ fuel, distributeWaves fuel only_zero 1 = OutOfFuel) as Hloop.
  { intros fuel. rewrite distributeWaves_eq, walk_all_zero; [done| |done|simpl; lia].
    by repeat constructor. }
  split_and!; try done.
  - constructor.
  - intros Hall. destruct (Hall only_zero 1 Hs) as (fuel & m & Hm); [lia|done|].
    by rewrite Hloop in Hm.
Qed.

(** C4, amended. When in addition at least one share is not zero, the call
    returns: some number of iterations brings [delta] to zero. *)
Theorem distributeWaves_terminates entries budget :
  shares_nonneg entries → 0 < budget →
  Z.of_nat (countNonzero entries) ≤ budget →
  (0 < countNonzero entries)%nat →
  ∃ fuel m, distributeWaves fuel entries budget = Returned m.
Proof.
  intros Hs Hb Hfeas Hpos.
  destruct (distributeWaves_returns entries budget Hs) as (fuel & r & Hw);
    [lia|done|].
  exists fuel, (finish r). by rewrite distributeWaves_eq, Hw.
Qed.

Lemma distributeWaves_terminates_witness :
  shares_nonneg one_left_over ∧ 0 < 10
  ∧ Z.of_nat (countNonzero one_left_over) ≤ 10
  ∧ (0 < countNonzero one_left_over)%nat
  ∧ ∃ fuel m, distributeWaves fuel one_left_over 10 = Returned m.
Proof.
  assert (shares_nonneg one_left_over) as Hs by each_by_evaluation.
  assert (Z.of_nat (countNonzero one_left_over) ≤ 10) as Hf by by_evaluation.
  assert (0 < countNonzero one_left_over)%nat as Hp by (vm_compute; lia).
  split_and!; [done|lia|done|done|].
  apply (distributeWaves_terminates one_left_over 10 Hs); [lia|done|done].
Defined.

Lemma infeasible_loops entries budget :
  shares_nonneg entries → budget < Z.of_nat (countNonzero entries) →
  entries ≠ [] → ∀ fuel, distributeWaves fuel entries budget = OutOfFuel.
Proof.
  intros Hs Hk Hne fuel.
  rewrite distributeWaves_eq, (walk_infeasible budget); [done|..].
  - by apply start_well_counted.
  - apply start_balance.
  - by rewrite countNZ_start.
  - unfold start, sort_by_rem. rewrite js_sort_length, length_fmap.
    destruct entries; [done|simpl; lia].
Qed.

(** Scenario 4: fifteen equal shares and ten units. *)
Example distributeWaves_fifteen_states fuel :
  distributeWaves fuel fifteen_states 10 = OutOfFuel.
Proof. apply infeasible_loops; [each_by_evaluation|by_evaluation|done]. Qed.

(** C2, as stated, fails: with two non-zero shares and one unit nothing is
    raised; the loop runs for as long as it is given fuel. *)
Lemma distributeWaves_infeasible_not_raised :
  shares_nonneg two_halves
  ∧ 1 < Z.of_nat (countNonzero two_halves)
  ∧ (∀ fuel, distributeWaves fuel two_halves 1 = OutOfFuel)
  ∧ ¬ (∀ entries budget,
         shares_nonneg entries → budget < Z.of_nat (countNonzero entries) →
         ∃ fuel err, distributeWaves fuel entries budget = Threw err).
Proof.
  assert (shares_nonneg two_halves) as Hs by each_by_evaluation.
  assert (1 < Z.of_nat (countNonzero two_halves)) as Hk by by_evaluation.
  assert (∀ fuel, distributeWaves fuel two_halves 1 = OutOfFuel) as Hloop
    by by apply infeasible_loops.
  split_and!; [done..|].
  intros Hall. destruct (Hall two_halves 1 Hs Hk) as (fuel & err & Herr).
  by rewrite Hloop in Herr.
Qed.

(** C2, amended. When more entries have a non-zero share than there are
    units, [distributeWaves] makes no check and raises nothing: the call
    never returns, and for a non-empty list the loop is still running after
    any number of iterations. *)
Theorem distributeWaves_infeasible_never_returns entries budget :
  shares_nonneg entries → budget < Z.of_nat (countNonzero entries) →
  (∀ fuel m, distributeWaves fuel entries budget ≠ Returned m)
  ∧ (entries ≠ [] → ∀ fuel, distributeWaves fuel entries budget = OutOfFuel).
Proof.
  intros Hs Hk. split; [|by apply infeasible_loops].
  intros fuel m. destruct entries as [|e entries].
  - change (budget < 0) in Hk.
    intros (r & Hr & _)%distributeWaves_returned. revert Hr.
    apply walk_empty. unfold delta0. simpl. lia.
  - by rewrite infeasible_loops.
Qed.

Lemma distributeWaves_infeasible_never_returns_witness :
  shares_nonneg two_halves
  ∧ 1 < Z.of_nat (countNonzero two_halves)
  ∧ (∀ fuel m, distributeWaves fuel two_halves 1 ≠ Returned m)
  ∧ (two_halves ≠ [] → ∀ fuel, distributeWaves fuel two_halves 1 = OutOfFuel).
Proof.
  assert (shares_nonneg two_halves) as Hs by each_by_evaluation.
  assert (1 < Z.of_nat (countNonzero two_halves)) as Hk by by_evaluation.
  destruct (distributeWaves_infeasible_never_returns two_halves 1 Hs Hk) as [Hn Hl].
  by split_and!.
Defined.

End AllocatorClaims.

(** * The claim about calls with nobody to serve *)

Section NothingToServe.
Import Allocator AllocatorNotions AllocatorFacts DistributeFacts Examples Renderer.

Implicit Types (entries : list entry) (budget : Z).

Lemma zero_shares_delta0 entries budget :
  Forall (λ e, share e = 0%Qc) entries → delta0 budget entries = budget.
Proof.
  intros Hz. unfold delta0.
  assert (sum_counts (to_floored budget <$> entries) = 0) as ->; [|lia].
  induction Hz as [|e entries He _ IH]; [done|].
  rewrite fmap_cons.
  change (sum_counts (?x :: ?l)) with (count x + sum_counts l).
  rewrite IH. unfold to_floored, base_count. simpl. rewrite He.
  by case_decide.
Qed.

Lemma zero_shares_start entries budget :
  Forall (λ e, share e = 0%Qc) entries →
  Forall (λ it, share (ent it) = 0%Qc) (start budget entries).
Proof.
  intros Hz. rewrite start_perm. apply Forall_fmap.
  eapply Forall_impl; [exact Hz|]. done.
Qed.

Lemma zero_shares_loop entries budget :
  Forall (λ e, share e = 0%Qc) entries → budget ≠ 0 → entries ≠ [] →
  ∀ fuel, distributeWaves fuel entries budget = OutOfFuel.
Proof.
  intros Hz Hb Hne fuel. rewrite distributeWaves_eq, walk_all_zero; [done|..].
  - by apply zero_shares_start.
  - by rewrite zero_shares_delta0.
  - unfold start, sort_by_rem. rewrite js_sort_length, length_fmap.
    destruct entries; [done|simpl; lia].
Qed.

Lemma renderChart_guard (localeCompare : string → string → Z) (fuel : nat)
    (byYearClass : gmap string (gmap string Norm.state)) (yr cls : Z) :
  let info := default ∅ (byYearClass !! Aggregator.bucket_key yr cls) in
  (info = ∅ → renderChart localeCompare fuel byYearClass yr cls = None)
  ∧ (info ≠ ∅ →
     renderChart localeCompare fuel byYearClass yr cls
     = Some (distributeWaves fuel
               (js_sort (entry_before localeCompare) (to_entry <$> entries_of info))
               WAVE_COUNT)).
Proof.
  intros info. unfold renderChart. fold info. split; intros Hinfo.
  - rewrite Hinfo. unfold entries_of. by rewrite map_to_list_empty.
  - rewrite decide_False; [done|].
    rewrite length_fmap. intros Hlen%nil_length_inv.
    by apply map_to_list_empty_iff in Hlen.
Qed.

(** C10. With a positive budget and no entry of non-zero share,
    [distributeWaves] never returns a result: on the empty list the first
    read [floored[0]] finds no element and [it.share] throws; on a non-empty
    list of zero shares the loop is still running after any number of
    iterations.  [renderChart] returns before the allocation when the
    selected bucket has no entries, and calls it otherwise. *)
Theorem distributeWaves_nothing_to_serve entries budget :
  Forall (λ e, share e = 0%Qc) entries → 0 < budget →
  (∀ fuel m, distributeWaves fuel entries budget ≠ Returned m)
  ∧ (entries = [] → ∀ fuel, distributeWaves (S fuel) entries budget = Threw TypeError)
  ∧ (entries ≠ [] → ∀ fuel, distributeWaves fuel entries budget = OutOfFuel)
  ∧ (∀ localeCompare fuel byYearClass yr cls,
       default ∅ (byYearClass !! Aggregator.bucket_key yr cls) = ∅ →
       renderChart localeCompare fuel byYearClass yr cls = None).
Proof.
  intros Hz Hb. split_and!.
  - intros fuel m. destruct entries as [|e entries].
    + intros (r & Hr & _)%distributeWaves_returned. revert Hr.
      apply walk_empty. rewrite zero_shares_delta0 by done. lia.
    + rewrite zero_shares_loop; [done..|lia|done].
  - intros -> fuel. rewrite distributeWaves_eq, walk_oob; [done| |done].
    rewrite zero_shares_delta0 by done. lia.
  - intros Hne fuel. apply zero_shares_loop; [done|lia|done].
  - intros localeCompare fuel byYearClass yr cls Hinfo.
    by apply renderChart_guard.
Qed.

Lemma distributeWaves_nothing_to_serve_witness :
  Forall (λ e, share e = 0%Qc) only_zero ∧ 0 < 100
  ∧ (∀ fuel m, distributeWaves fuel only_zero 100 ≠ Returned m)
  ∧ (∀ fuel, distributeWaves fuel only_zero 100 = OutOfFuel)
  ∧ renderChart (λ _ _, 0) 0 ∅ 2022 1 = None.
Proof.
  assert (Forall (λ e, share e = 0%Qc) only_zero) as Hz by by repeat constructor.
  assert (0 < 100) as Hb by lia.
  destruct (distributeWaves_nothing_to_serve only_zero 100 Hz Hb)
    as (Hn & _ & Hl & Hg).
  split_and!; [done..| |].
  - by apply Hl.
  - by apply Hg.
Defined.

End NothingToServe.

(** * The claims about [aggregateAndNormalize] *)

Section AggregatorClaims.
Import Aggregator AggregatorNotions AggregateFacts NormalizeFacts RawExamples.
Import DistributeFacts.

Implicit Types (raw prefix suffix : list Raw.record) (d : Raw.record)
  (yr cls : Z) (sc key : string) (states : gmap string Agg.state)
  (b : gmap string Norm.state).

Lemma byYearClass_lookup_inv raw key b :
  byYearClass (aggregateAndNormalize raw) !! key = Some b →
  ∃ yr cls states,
    key = bucket_key yr cls
    ∧ lookup_bucket (aggregate raw) yr cls = Some states
    ∧ b = normalizeBucket states.
Proof.
  unfold aggregateAndNormalize. simpl. rewrite normalize_flat.
  intros (yr & classes & cls & states & Hyr & Hcls & -> & ->)%fromEntries_lookup_inv%elem_of_flat.
  exists yr, cls, states. split_and!; [done| |done].
  unfold lookup_bucket. by rewrite Hyr.
Qed.

Lemma share_of_state raw yr cls sc st states :
  lookup_bucket (aggregate raw) yr cls = Some states → states !! sc = Some st →
  byYearClass (aggregateAndNormalize raw) !! bucket_key yr cls ≫= (λ b, b !! sc)
  = Some (normalizeState (divisor states) st).
Proof.
  intros Hb Hst. rewrite byYearClass_lookup, Hb. simpl.
  by rewrite normalizeBucket_lookup, Hst.
Qed.

(** C5, as stated, fails: one record with contribution zero gives a bucket
    with one state, whose shares add up to zero. *)
Lemma degenerate_bucket_shares_sum_to_zero :
  (∃ b, byYearClass (aggregateAndNormalize [fiji 0%Qc 6]) !! "2022|1" = Some b
        ∧ size b = 1%nat ∧ sum_shares b = 0%Qc ∧ sum_shares b ≠ 1%Qc)
  ∧ ¬ (∀ raw key b,
         byYearClass (aggregateAndNormalize raw) !! key = Some b → b ≠ ∅ →
         sum_shares b = 1%Qc).
Proof.
  assert (∃ b, byYearClass (aggregateAndNormalize [fiji 0%Qc 6]) !! "2022|1" = Some b
               ∧ size b = 1%nat ∧ sum_shares b = 0%Qc ∧ sum_shares b ≠ 1%Qc)
    as (b & Hb & Hsize & Hsum & Hne).
  { eexists. split; [by_evaluation|]. split; [by_evaluation|].
    split; [by apply Qc_is_canon|]. by_evaluation. }
  split; [by exists b|].
  intros Hall. apply Hne, (Hall [fiji 0%Qc 6] "2022|1"); [done|].
  intros ->. by rewrite map_size_empty in Hsize.
Qed.

(** C5, amended. Every bucket of the result is the normalization of a
    first-pass bucket, and when the raw sums of that bucket do not total
    zero its shares add up to one. *)
Theorem shares_sum_to_one raw key b :
  byYearClass (aggregateAndNormalize raw) !! key = Some b →
  ∃ yr cls states,
    key = bucket_key yr cls
    ∧ lookup_bucket (aggregate raw) yr cls = Some states
    ∧ b = normalizeBucket states
    ∧ (total states ≠ 0%Qc → sum_shares b = 1%Qc).
Proof.
  intros (yr & cls & states & -> & Hb & ->)%byYearClass_lookup_inv.
  exists yr, cls, states. split_and!; [done..|].
  intros Ht. rewrite sum_shares_normalizeBucket. unfold divisor.
  rewrite decide_False by done. unfold Qcdiv. by apply Qcmult_inv_r.
Qed.

Lemma shares_sum_to_one_witness :
  ∃ b, byYearClass (aggregateAndNormalize sample) !! "2022|1" = Some b
       ∧ sum_shares b = 1%Qc.
Proof.
  destruct (byYearClass (aggregateAndNormalize sample) !! "2022|1") as [b|] eqn:Hb;
    [|by vm_compute in Hb].
  exists b. split; [done|].
  destruct (shares_sum_to_one sample "2022|1" b Hb)
    as (yr & cls & states & Hk & Hl & _ & Hsum).
  apply Hsum.
  change "2022|1" with (bucket_key 2022 1) in Hk.
  apply bucket_key_inj in Hk as [<- <-].
  vm_compute in Hl. injection Hl as <-. by_evaluation.
Defined.



(** C7. [years] and [classes] hold exactly the years and the class numbers
    of the records, each once, in ascending numeric order; two inputs that
    are permutations of each other give the same two lists. *)
Theorem years_and_classes_sorted raw :
  let result := aggregateAndNormalize raw in
  StronglySorted Z.lt (years result)
  ∧ (∀ y, y ∈ years result ↔ ∃ d, d ∈ raw ∧ Raw.year d = y)
  ∧ StronglySorted Z.lt (classes result)
  ∧ (∀ c, c ∈ classes result ↔ ∃ d, d ∈ raw ∧ Raw.class_num d = c)
  ∧ (∀ raw', raw ≡ₚ raw' →
       years (aggregateAndNormalize raw') = years result
       ∧ classes (aggregateAndNormalize raw') = classes result).
Proof.
  simpl.
  destruct (yearsSet_spec raw) as [Hyn Hye], (classesSet_spec raw) as [Hcn Hce].
  split_and!.
  - apply sorted_distinct; [apply sort_numeric_sorted|by rewrite sort_numeric_perm].
  - intros y. by rewrite sort_numeric_perm.
  - apply sorted_distinct; [apply sort_numeric_sorted|by rewrite sort_numeric_perm].
  - intros c. by rewrite sort_numeric_perm.
  - intros raw' Hp.
    destruct (yearsSet_spec raw') as [Hyn' Hye'], (classesSet_spec raw') as [Hcn' Hce'].
    split; apply sort_numeric_same; try done.
    + intros y. rewrite Hye, Hye'. by setoid_rewrite Hp.
    + intros c. rewrite Hce, Hce'. by setoid_rewrite Hp.
Qed.

Lemma years_and_classes_sorted_witness :
  years (aggregateAndNormalize sample) = [2021; 2022]
  ∧ classes (aggregateAndNormalize sample) = [1; 2]
  ∧ years (aggregateAndNormalize (reverse sample)) = years (aggregateAndNormalize sample)
  ∧ classes (aggregateAndNormalize (reverse sample)) = classes (aggregateAndNormalize sample).
Proof.
  split; [done|]. split; [done|].
  destruct (years_and_classes_sorted sample) as (_ & _ & _ & _ & Hperm).
  apply Hperm. symmetry. apply reverse_Permutation.
Defined.

(** C8. The accumulator of a key exists exactly when some record carries
    the key; its [rank] and [missing] are those of the last such record in
    input order, its [rawSum] is the sum over all such records, and the
    normalized bucket shows the same [rank] and [missing]. *)
Theorem last_record_wins raw yr cls sc :
  match last (filter (matches yr cls sc) raw) with
  | None => lookup_state (aggregate raw) yr cls sc = None
  | Some d =>
      ∃ st n,
        lookup_state (aggregate raw) yr cls sc = Some st
        ∧ Agg.rank st = Raw.state_rank_per_class d
        ∧ Agg.missing st = Raw.pct_missing_values d
        ∧ Agg.rawSum st = sum_contributions (filter (matches yr cls sc) raw)
        ∧ byYearClass (aggregateAndNormalize raw) !! bucket_key yr cls
            ≫= (λ b, b !! sc) = Some n
        ∧ Norm.rank n = Raw.state_rank_per_class d
        ∧ Norm.missing n = Raw.pct_missing_values d
  end.
Proof.
  pose proof (lookup_state_aggregate raw yr cls sc) as Hl.
  destruct (filter (matches yr cls sc) raw) as [|d ms _] using rev_ind.
  - done.
  - rewrite last_snoc.
    destruct (absorb_all_snoc ms d) as (st & Hst & Hsum & Hrank & Hmiss & _).
    rewrite Hst in Hl.
    pose proof Hl as Hl'. apply bind_Some in Hl' as (states & Hb & Hs).
    exists st, (normalizeState (divisor states) st).
    split_and!; try done. by apply share_of_state.
Qed.

Example sample_last_record :
  (λ st, (Agg.rank st, Agg.rawSum st)) <$> lookup_state (aggregate sample) 2022 1 "FJ"
  = Some (3, Examples.q 1 2).
Proof. vm_compute. f_equal. f_equal. by apply Qc_is_canon. Qed.

Lemma rawSum_nonneg raw yr cls states :
  Forall (λ d, (0 ≤ Raw.value_contribution_to_class d)%Qc) raw →
  lookup_bucket (aggregate raw) yr cls = Some states →
  ∀ sc st, states !! sc = Some st → (0 ≤ Agg.rawSum st)%Qc.
Proof.
  intros Hnn Hb sc st Hst.
  assert (lookup_state (aggregate raw) yr cls sc = Some st) as Hls.
  { unfold lookup_state. by rewrite Hb. }
  pose proof (rawSumAt_aggregate raw yr cls sc) as Hsum.
  unfold rawSumAt in Hsum. rewrite Hls in Hsum. simpl in Hsum.
  rewrite Hsum. apply sum_contributions_nonneg.
  apply Forall_forall. intros d [_ Hd]%list_elem_of_filter.
  eapply Forall_forall in Hnn; eauto.
Qed.

Lemma zero_total_all_zero states :
  (∀ sc st, states !! sc = Some st → (0 ≤ Agg.rawSum st)%Qc) →
  total states = 0%Qc →
  ∀ sc st, states !! sc = Some st → Agg.rawSum st = 0%Qc.
Proof.
  intros Hnn Ht sc st Hst.
  rewrite total_qsum in Ht. apply qsum_zero in Ht.
  - eapply Forall_forall in Ht; [exact Ht|].
    apply list_elem_of_fmap. exists st. split; [done|].
    unfold values_of. apply list_elem_of_fmap. exists (sc, st).
    split; [done|]. by apply elem_of_map_to_list.
  - apply Forall_fmap, Forall_forall. intros st' Hin.
    apply list_elem_of_fmap in Hin as ([sc' st''] & -> & Hin).
    apply elem_of_map_to_list in Hin. by apply (Hnn sc').
Qed.



(** A bucket of zero raw sums is not empty, so [renderChart] does call the
    allocator on it, and that call has nobody to serve. *)
Lemma renderChart_zero_total (localeCompare : string → string → Z) raw yr cls states :
  lookup_bucket (aggregate raw) yr cls = Some states → states ≠ ∅ →
  (∀ sc st, states !! sc = Some st → Agg.rawSum st = 0%Qc) →
  ∀ fuel,
    Renderer.renderChart localeCompare fuel
      (byYearClass (aggregateAndNormalize raw)) yr cls = Some OutOfFuel.
Proof.
  intros Hb Hne Hz fuel.
  assert (default ∅ (byYearClass (aggregateAndNormalize raw) !! bucket_key yr cls)
          = normalizeBucket states) as Hinfo
    by (by rewrite byYearClass_lookup, Hb).
  destruct (renderChart_guard localeCompare fuel
              (byYearClass (aggregateAndNormalize raw)) yr cls) as [_ Hcall].
  cbv zeta in Hcall. rewrite Hinfo in Hcall.
  rewrite Hcall; [|by rewrite normalizeBucket_fmap, fmap_empty_iff].
  f_equal. apply zero_shares_loop; [|done|].
  - rewrite js_sort_perm. apply Forall_fmap, Forall_forall.
    intros [sc n] Hin. apply elem_of_map_to_list in Hin.
    rewrite normalizeBucket_lookup in Hin.
    apply fmap_Some in Hin as (st & Hst & ->). simpl.
    rewrite (Hz sc st Hst). unfold Qcdiv. ring.
  - intros Hnil. apply (f_equal length) in Hnil.
    rewrite js_sort_length, length_fmap in Hnil.
    apply nil_length_inv, map_to_list_empty_iff in Hnil.
    by rewrite normalizeBucket_fmap, fmap_empty_iff in Hnil.
Qed.

Example renderChart_zero_total_sample (localeCompare : string → string → Z) fuel :
  Renderer.renderChart localeCompare fuel
    (byYearClass (aggregateAndNormalize sample)) 2021 2 = Some OutOfFuel.
Proof.
  destruct (lookup_bucket (aggregate sample) 2021 2) as [states|] eqn:Hb;
    [|by vm_compute in Hb].
  apply (renderChart_zero_total _ _ _ _ states Hb).
  - vm_compute in Hb. injection Hb as <-. done.
  - apply zero_total_all_zero.
    + apply (rawSum_nonneg sample 2021 2); [|done].
      each_by_evaluation.
    + vm_compute in Hb. injection Hb as <-. by apply Qc_is_canon.
Qed.

End AggregatorClaims.

(** * More of the code *)

(** * More about [aggregateAndNormalize] *)

Section AggregatorMore.
Import Aggregator AggregatorNotions AggregateFacts NormalizeFacts RawExamples.

Implicit Types (raw : list Raw.record) (d : Raw.record)
  (yr cls : Z) (sc key : string) (states : gmap string Agg.state)
  (b : gmap string Norm.state).

Lemma lookup_bucket_is_Some raw yr cls :
  is_Some (lookup_bucket (aggregate raw) yr cls)
  ↔ ∃ d, d ∈ raw ∧ Raw.year d = yr ∧ Raw.class_num d = cls.
Proof.
  induction raw as [|d raw IH] using rev_ind.
  - split; [by intros [? ?]|]. by intros (d & ?%elem_of_nil & _).
  - rewrite aggregate_snoc, lookup_bucket_visit. case_decide as Hd.
    + split; [|by eauto]. intros _. exists d.
      split; [|done]. apply elem_of_app. right. by left.
    + rewrite IH. split.
      * intros (d' & Hin & Hy). exists d'. split; [|done].
        apply elem_of_app. by left.
      * intros (d' & [Hin| ->%list_elem_of_singleton]%elem_of_app & Hy);
          [by exists d'|done].
Qed.

Lemma bucket_state raw yr cls states sc :
  lookup_bucket (aggregate raw) yr cls = Some states →
  states !! sc = lookup_state (aggregate raw) yr cls sc.
Proof. intros Hb. unfold lookup_state. by rewrite Hb. Qed.


(** X2. The names of a state are those of the first record that carries
    its key: later records change [rank] and [missing], never [stateName] or
    [subregion]. *)
Theorem first_record_names raw yr cls sc :
  match head (filter (matches yr cls sc) raw) with
  | None => lookup_state (aggregate raw) yr cls sc = None
  | Some d =>
      ∃ st n,
        lookup_state (aggregate raw) yr cls sc = Some st
        ∧ Agg.stateName st = Raw.state_name d
        ∧ Agg.subregion st = Raw.subregion_name d
        ∧ byYearClass (aggregateAndNormalize raw) !! bucket_key yr cls
            ≫= (λ b, b !! sc) = Some n
        ∧ Norm.stateName n = Raw.state_name d
        ∧ Norm.subregion n = Raw.subregion_name d
  end.
Proof.
  pose proof (lookup_state_aggregate raw yr cls sc) as Hl.
  destruct (filter (matches yr cls sc) raw) as [|d ms _] using rev_ind.
  - done.
  - destruct (absorb_all_snoc ms d) as (st & Hst & _ & _ & _ & Hname & Hsub).
    rewrite Hst in Hl.
    assert (head (ms ++ [d]) = Some (default d (head ms))) as -> by by destruct ms.
    pose proof Hl as Hl'. apply bind_Some in Hl' as (states & Hb & Hs).
    exists st, (normalizeState (divisor states) st).
    split_and!; try done. by apply share_of_state.
Qed.

Lemma qsum_elem_le (l : list Qc) (x : Qc) :
  Forall (λ y, (0 ≤ y)%Qc) l → x ∈ l → (x ≤ qsum l)%Qc.
Proof.
  induction 1 as [|y l Hy Hl IH]; intros Hin; [by apply elem_of_nil in Hin|].
  change (qsum (y :: l)) with (y + qsum l)%Qc.
  pose proof (qsum_nonneg l Hl) as Hq.
  apply elem_of_cons in Hin as [->|Hin].
  - rewrite <- (Qcplus_0_r y) at 1. by apply Qcplus_le_mono_l.
  - etrans; [by apply IH|].
    rewrite <- (Qcplus_0_l (qsum l)) at 1. by apply Qcplus_le_mono_r.
Qed.

Lemma Qcdiv_unit (x d : Qc) : (0 ≤ x)%Qc → (x ≤ d)%Qc → (0 < d)%Qc →
  (0 ≤ x / d)%Qc ∧ (x / d ≤ 1)%Qc.
Proof.
  intros Hx Hxd Hd. unfold Qcdiv.
  assert (0 < / d)%Qc as Hinv by by apply Qcinv_pos.
  split.
  - apply Qcmult_nonneg_nonneg; [done|]. by apply Qclt_le_weak.
  - rewrite <- (Qcmult_inv_r d) by (by apply Qclt_not_eq in Hd; intros ->).
    apply Qcmult_le_compat_r; [done|]. by apply Qclt_le_weak.
Qed.

(** X3. When no contribution is negative, every share of the result lies
    between 0 and 1. *)
Theorem shares_in_unit_interval raw key b sc n :
  Forall (λ d, (0 ≤ Raw.value_contribution_to_class d)%Qc) raw →
  byYearClass (aggregateAndNormalize raw) !! key = Some b →
  b !! sc = Some n →
  (0 ≤ Norm.share n)%Qc ∧ (Norm.share n ≤ 1)%Qc.
Proof.
  intros Hnn (yr & cls & states & -> & Hb & ->)%byYearClass_lookup_inv.
  rewrite normalizeBucket_lookup. intros (st & Hst & ->)%fmap_Some. simpl.
  pose proof (rawSum_nonneg raw yr cls states Hnn Hb) as Hpos.
  assert (Forall (λ x, (0 ≤ x)%Qc) (Agg.rawSum <$> values_of states)) as Hall.
  { apply Forall_fmap, Forall_forall. intros st' Hin.
    apply list_elem_of_fmap in Hin as ([sc' st''] & -> & Hin).
    apply elem_of_map_to_list in Hin. by apply (Hpos sc'). }
  assert (Agg.rawSum st ≤ total states)%Qc as Hle.
  { rewrite total_qsum. apply qsum_elem_le; [done|].
    apply list_elem_of_fmap. exists st. split; [done|].
    apply list_elem_of_fmap. exists (sc, st). split; [done|].
    by apply elem_of_map_to_list. }
  assert (0 ≤ total states)%Qc as Htot by (rewrite total_qsum; by apply qsum_nonneg).
  unfold divisor. case_decide as Hz.
  - rewrite Hz in Hle.
    assert (Agg.rawSum st = 0%Qc) as -> by (apply Qcle_antisym; eauto).
    by apply Qcdiv_unit.
  - apply Qcdiv_unit; [by eauto|done|].
    apply Qcle_lt_or_eq in Htot as [?|Heq]; [done|]. by rewrite <- Heq in Hz.
Qed.

Lemma shares_in_unit_interval_witness :
  ∃ b n, byYearClass (aggregateAndNormalize sample) !! "2022|1" = Some b
         ∧ b !! "FJ" = Some n
         ∧ (0 ≤ Norm.share n)%Qc ∧ (Norm.share n ≤ 1)%Qc.
Proof.
  assert (Forall (λ d, (0 ≤ Raw.value_contribution_to_class d)%Qc) sample) as Hnn
    by each_by_evaluation.
  destruct (byYearClass (aggregateAndNormalize sample) !! "2022|1") as [b|] eqn:Hb;
    [|by vm_compute in Hb].
  destruct (b !! "FJ") as [n|] eqn:Hn.
  - exists b, n. split; [done|]. split; [done|].
    by apply (shares_in_unit_interval sample "2022|1" b "FJ" n Hnn).
  - vm_compute in Hb. injection Hb as <-. by vm_compute in Hn.
Defined.

End AggregatorMore.

(** * The pipeline: records, bucket, allocation *)

Section Pipeline.
Import Allocator AllocatorNotions AllocatorFacts DistributeFacts.
Import Aggregator AggregatorNotions AggregateFacts NormalizeFacts RawExamples.
Import Renderer.

Variable localeCompare : string → string → Z.

Implicit Types (raw : list Raw.record) (d : Raw.record)
  (yr cls : Z) (sc key : string) (states : gmap string Agg.state)
  (b : gmap string Norm.state).

Lemma bucket_nonempty raw yr cls states :
  lookup_bucket (aggregate raw) yr cls = Some states → states ≠ ∅.
Proof.
  intros Hb Hempty.
  destruct (lookup_bucket_is_Some raw yr cls) as [(d & Hin & Hy & Hc) _]; [by eauto|].
  assert (is_Some (states !! Raw.state_code d)) as [st Hst].
  { rewrite (bucket_state raw yr cls) by done.
    apply lookup_state_is_Some. by exists d. }
  by rewrite Hempty, lookup_empty in Hst.
Qed.

Lemma renderChart_bucket fuel raw yr cls states :
  lookup_bucket (aggregate raw) yr cls = Some states →
  renderChart localeCompare fuel (byYearClass (aggregateAndNormalize raw)) yr cls
  = Some (distributeWaves fuel (bucket_entries localeCompare (normalizeBucket states)) WAVE_COUNT).
Proof.
  intros Hb.
  assert (default ∅ (byYearClass (aggregateAndNormalize raw) !! bucket_key yr cls)
          = normalizeBucket states) as Hinfo
    by (by rewrite byYearClass_lookup, Hb).
  destruct (renderChart_guard localeCompare fuel
              (byYearClass (aggregateAndNormalize raw)) yr cls) as [_ Hcall].
  cbv zeta in Hcall. rewrite Hinfo in Hcall. apply Hcall.
  rewrite normalizeBucket_fmap, fmap_empty_iff. by eapply bucket_nonempty.
Qed.


Lemma bucket_entries_elem b e :
  e ∈ bucket_entries localeCompare b ↔ ∃ sc n, b !! sc = Some n ∧ e = to_entry (sc, n).
Proof.
  unfold bucket_entries, entries_of. rewrite js_sort_perm, list_elem_of_fmap. split.
  - intros ([sc n] & -> & Hin%elem_of_map_to_list). by exists sc, n.
  - intros (sc & n & Hn & ->). exists (sc, n). split; [done|].
    by apply elem_of_map_to_list.
Qed.

Lemma bucket_entries_codes b : NoDup (stateCode <$> bucket_entries localeCompare b).
Proof.
  unfold bucket_entries, entries_of. rewrite js_sort_perm, <- list_fmap_compose.
  rewrite (list_fmap_ext _ fst (map_to_list b)) by (by intros ? []).
  apply NoDup_fst_map_to_list.
Qed.

Lemma bucket_entries_length b : length (bucket_entries localeCompare b) = size b.
Proof.
  unfold bucket_entries, entries_of.
  by rewrite js_sort_length, length_fmap, length_map_to_list.
Qed.

Lemma Qcdiv_nonneg (x d : Qc) : (0 ≤ x)%Qc → (0 < d)%Qc → (0 ≤ x / d)%Qc.
Proof.
  intros Hx Hd. unfold Qcdiv. apply Qcmult_nonneg_nonneg; [done|].
  by apply Qclt_le_weak, Qcinv_pos.
Qed.

Lemma finish_dom (r : list item) (sc : string) :
  sc ∈ dom (finish r) ↔ ∃ it, it ∈ r ∧ stateCode (ent it) = sc.
Proof.
  unfold finish. rewrite fromEntries_list_to_map, dom_list_to_map_L.
  rewrite elem_of_list_to_set, fmap_reverse, elem_of_reverse, finish_pairs_fst.
  rewrite <- list_fmap_compose, list_elem_of_fmap. split.
  - intros (it & -> & Hin). by exists it.
  - intros (it & Hin & <-). by exists it.
Qed.

Lemma Qcdiv_zero_iff (x d : Qc) : d ≠ 0%Qc → (x / d)%Qc = 0%Qc ↔ x = 0%Qc.
Proof.
  intros Hd. unfold Qcdiv. split.
  - intros [?|Hinv]%Qcmult_integral; [done|].
    exfalso. apply Hd.
    rewrite <- (Qcmult_1_l d), <- (Qcmult_inv_r d) by done.
    rewrite <- Qcmult_assoc, (Qcmult_comm (/ d)), Qcmult_assoc, Hinv. ring.
  - intros ->. ring.
Qed.

Lemma bucket_entries_states states e :
  e ∈ bucket_entries localeCompare (normalizeBucket states)
  ↔ ∃ sc st, states !! sc = Some st
             ∧ e = to_entry (sc, normalizeState (divisor states) st).
Proof.
  rewrite bucket_entries_elem. split.
  - intros (sc & n & Hn & ->). rewrite normalizeBucket_lookup in Hn.
    apply fmap_Some in Hn as (st & Hst & ->). by exists sc, st.
  - intros (sc & st & Hst & ->). exists sc, (normalizeState (divisor states) st).
    split; [|done]. by rewrite normalizeBucket_lookup, Hst.
Qed.

(** A bucket as the theorems below take it gives the allocator an input it
    can serve. *)
Lemma bucket_feasible raw yr cls states :
  Forall (λ d, (0 ≤ Raw.value_contribution_to_class d)%Qc) raw →
  lookup_bucket (aggregate raw) yr cls = Some states →
  total states ≠ 0%Qc →
  (size states ≤ 100)%nat →
  let entries := bucket_entries localeCompare (normalizeBucket states) in
  shares_nonneg entries
  ∧ NoDup (stateCode <$> entries)
  ∧ Z.of_nat (countNonzero entries) ≤ WAVE_COUNT
  ∧ (0 < countNonzero entries)%nat.
Proof.
  intros Hnn Hb Ht Hsize entries.
  pose proof (rawSum_nonneg raw yr cls states Hnn Hb) as Hpos.
  assert (0 < divisor states)%Qc as Hdiv.
  { unfold divisor. rewrite decide_False by done.
    assert (0 ≤ total states)%Qc as Htot.
    { rewrite total_qsum. apply qsum_nonneg, Forall_fmap, Forall_forall.
      intros st' Hin. apply list_elem_of_fmap in Hin as ([sc' st''] & -> & Hin).
      apply elem_of_map_to_list in Hin. by apply (Hpos sc'). }
    apply Qcle_lt_or_eq in Htot as [?|Heq]; [done|]. by rewrite <- Heq in Ht. }
  pose proof (bucket_entries_states states) as Helem. fold entries in Helem.
  split_and!.
  - apply Forall_forall. intros e (sc & st & Hst & ->)%Helem. simpl.
    apply Qcdiv_nonneg; [by apply (Hpos sc)|done].
  - apply bucket_entries_codes.
  - unfold countNonzero.
    pose proof (length_filter (λ e, share e ≠ 0%Qc) entries) as Hlen.
    unfold entries in Hlen at 2. rewrite bucket_entries_length in Hlen.
    rewrite normalizeBucket_fmap, map_size_fmap in Hlen.
    unfold WAVE_COUNT. lia.
  - destruct (decide (Forall (λ x, x = 0%Qc) (Agg.rawSum <$> values_of states)))
      as [Hall|Hnall].
    + exfalso. apply Ht. rewrite total_qsum. clear -Hall.
      induction Hall as [|x l -> _ IH]; [done|].
      change (qsum (?x :: ?l)) with (x + qsum l)%Qc. rewrite IH. ring.
    + apply not_Forall_Exists in Hnall; [|apply _].
      apply Exists_exists in Hnall as (x & Hin & Hx).
      apply list_elem_of_fmap in Hin as (st & -> & Hin).
      apply list_elem_of_fmap in Hin as ([sc st'] & -> & Hin).
      apply elem_of_map_to_list in Hin. simpl in Hx.
      unfold countNonzero.
      assert (to_entry (sc, normalizeState (divisor states) st')
              ∈ filter (λ e, share e ≠ 0%Qc) entries) as Hmem.
      { apply list_elem_of_filter. split.
        - simpl. rewrite Qcdiv_zero_iff; [done|]. apply divisor_nonzero.
        - apply Helem. by exists sc, st'. }
      destruct (filter _ entries); [by apply elem_of_nil in Hmem|simpl; lia].
Qed.

(** X5. For a bucket of at most [WAVE_COUNT] states whose contributions are
    not negative and do not total zero, the allocation made by [renderChart]
    returns; its counts add up to [WAVE_COUNT]; a state has no wave exactly
    when its raw sum is zero, and at least one otherwise. *)
Theorem renderChart_allocates raw yr cls states :
  Forall (λ d, (0 ≤ Raw.value_contribution_to_class d)%Qc) raw →
  lookup_bucket (aggregate raw) yr cls = Some states →
  total states ≠ 0%Qc →
  (size states ≤ 100)%nat →
  ∃ fuel m,
    renderChart localeCompare fuel (byYearClass (aggregateAndNormalize raw)) yr cls
    = Some (Returned m)
    ∧ sum_values m = WAVE_COUNT
    ∧ dom m = dom states
    ∧ ∀ sc st, states !! sc = Some st →
        ∃ c, m !! sc = Some c
             ∧ ((0 < Agg.rawSum st)%Qc → 1 ≤ c)
             ∧ (c = 0 ↔ Agg.rawSum st = 0%Qc).
Proof.
  intros Hnn Hb Ht Hsize.
  set (entries := bucket_entries localeCompare (normalizeBucket states)).
  destruct (bucket_feasible raw yr cls states Hnn Hb Ht Hsize)
    as (Hs & Hnd & Hfeas & Hsome). fold entries in Hs, Hnd, Hfeas, Hsome.
  pose proof (bucket_entries_states states) as Helem. fold entries in Helem.
  destruct (feasible_returns entries WAVE_COUNT Hs Hfeas Hsome) as (fuel & m & Hm).
  exists fuel, m.
  destruct (feasible_result _ _ _ _ Hs Hnd Hm) as (r & -> & Hwc & Hsum & Hent).
  split_and!.
  - rewrite (renderChart_bucket fuel raw yr cls states Hb). by f_equal.
  - by rewrite (finish_sum entries).
  - apply set_eq. intros sc. rewrite finish_dom, elem_of_dom. split.
    + intros (it & Hin & <-).
      assert (ent it ∈ entries) as (sc & st & Hst & ->)%Helem.
      { rewrite <- Hent. by apply list_elem_of_fmap_2. }
      by eauto.
    + intros [st Hst].
      assert (to_entry (sc, normalizeState (divisor states) st) ∈ ent <$> r) as Hin.
      { rewrite Hent. apply Helem. by exists sc, st. }
      apply list_elem_of_fmap in Hin as (it & Hit & Hin).
      exists it. split; [done|]. by rewrite <- Hit.
  - intros sc st Hst.
    assert (to_entry (sc, normalizeState (divisor states) st) ∈ ent <$> r) as Hin.
    { rewrite Hent. apply Helem. by exists sc, st. }
    apply list_elem_of_fmap in Hin as (it & Hit & Hin).
    exists (count it). split.
    { rewrite <- (finish_lookup entries r it Hnd Hent Hin). by rewrite <- Hit. }
    assert (counted it) as Hc by (eapply Forall_forall in Hwc; eauto).
    unfold counted in Hc. rewrite <- Hit in Hc. simpl in Hc.
    assert (divisor states ≠ 0%Qc) as Hd0 by apply divisor_nonzero.
    case_decide as Hz.
    + apply Qcdiv_zero_iff in Hz; [|done]. rewrite Hz.
      split; [by intros ?%Qclt_not_eq|done].
    + rewrite Qcdiv_zero_iff in Hz by done.
      split; [done|]. split; [lia|done].
Qed.

End Pipeline.

Lemma renderChart_allocates_witness :
  ∃ fuel m,
    Renderer.renderChart (λ _ _, 0) fuel
      (Aggregator.byYearClass (Aggregator.aggregateAndNormalize RawExamples.sample)) 2022 1
    = Some (Returned m)
    ∧ AllocatorNotions.sum_values m = 100.
Proof.
  destruct (AggregatorNotions.lookup_bucket
              (Aggregator.aggregate RawExamples.sample) 2022 1) as [states|] eqn:Hb;
    [|by vm_compute in Hb].
  assert (Forall (λ d, (0 ≤ Raw.value_contribution_to_class d)%Qc) RawExamples.sample)
    as Hnn by each_by_evaluation.
  assert (Aggregator.total states ≠ 0%Qc ∧ (size states ≤ 100)%nat) as [Ht Hsize].
  { vm_compute in Hb. injection Hb as <-. split; [by_evaluation|vm_compute; lia]. }
  destruct (renderChart_allocates (λ _ _, 0) RawExamples.sample 2022 1 states
              Hnn Hb Ht Hsize) as (fuel & m & Hm & Hsum & _).
  exists fuel, m. split; [exact Hm|exact Hsum].
Defined.

(** * Largest remainders *)


Section JsSortSorted.
Context {A : Type} (before : A → A → bool).
Hypothesis before_total : ∀ x y, before x y = false → before y x = true.
Hypothesis before_trans : ∀ x y z, before x y = true → before y z = true → before x z = true.


End JsSortSorted.

Module QuotaFacts.
Import Allocator AllocatorNotions AllocatorFacts DistributeFacts QuotaNotions.
Import AggregatorNotions NormalizeFacts.

Implicit Types (entries : list entry) (e : entry) (fl r l : list item)
  (it : item) (i j d : nat) (delta c B : Z) (m : gmap string Z).






(** ** Floors and remainders *)


Lemma Qc_of_Z_pos (a : Z) : 0 < a → (0 < Qc_of_Z a)%Qc.
Proof.
  intros Ha. unfold Qclt. change (inject_Z 0 < inject_Z a)%Q. by rewrite <- Zlt_Qlt.
Qed.







End QuotaFacts.

(** ** The allocation as a largest-remainder rounding *)

Section Quota.
Import Allocator AllocatorNotions AllocatorFacts DistributeFacts QuotaNotions.
Import AggregatorNotions NormalizeFacts QuotaFacts.
Variables (entries : list entry) (B : Z).
Hypothesis positive : 0 < B.
Hypothesis whole : qsum (share <$> entries) = 1%Qc.
Hypothesis units : ∀ e, e ∈ entries → share e = 0%Qc ∨ (1 ≤ share e * Qc_of_Z B)%Qc.

Lemma quota_nonneg e : e ∈ entries → (0 ≤ share e)%Qc.
Proof.
  intros He. destruct (units e He) as [->|Hu]; [done|].
  apply Qcnot_lt_le. intros Hneg.
  assert (share e * Qc_of_Z B ≤ 0 * Qc_of_Z B)%Qc as Hle.
  { apply Qcmult_le_mono_nonneg_r; [by apply Qclt_le_weak, Qc_of_Z_pos|].
    by apply Qclt_le_weak. }
  rewrite Qcmult_0_l in Hle.
  assert (1 ≤ 0)%Qc as Habs by (by etrans). by apply Qcle_not_lt in Habs.
Qed.

Lemma quota_shares_nonneg : shares_nonneg entries.
Proof. apply Forall_forall. intros e He. by apply quota_nonneg. Qed.









End Quota.


(** * The page *)

Section PageFacts.
Import Allocator AllocatorNotions AllocatorFacts DistributeFacts.
Import Aggregator AggregatorNotions AggregateFacts NormalizeFacts.
Import Page.

Variable localeCompare : string → string → Z.

Implicit Types (p : page) (w : wave) (counts m : gmap string Z)
  (es : list entry) (r : list item) (ev : event) (evs : list event).

Lemma foldl_place_entry counts es : ∀ acc,
  foldl (place_entry counts) acc es
  = (acc.1 ++ (es ≫= waves_of counts),
     acc.2 + Z.of_nat (length (es ≫= waves_of counts))).
Proof.
  induction es as [|e es IH]; intros [s n].
  - simpl. by rewrite app_nil_r, Z.add_0_r.
  - cbn [foldl]. rewrite IH, bind_cons, length_app.
    unfold place_entry. cbn [fst snd]. rewrite <- app_assoc. f_equal. lia.
Qed.

Lemma place_eq es counts :
  place es counts
  = (es ≫= waves_of counts)
    ++ replicate (Z.to_nat (Renderer.WAVE_COUNT
                            - Z.of_nat (length (es ≫= waves_of counts))))
                 (createWaveElement DFLT_BG None).
Proof. unfold place. rewrite foldl_place_entry. cbn [fst snd]. by rewrite Z.add_0_l. Qed.

Lemma length_waves counts es :
  length (es ≫= waves_of counts)
  = sum_list_with (λ e, Z.to_nat (default 0 (counts !! stateCode e))) es.
Proof.
  induction es as [|e es IH]; [done|].
  rewrite bind_cons, length_app, IH. unfold waves_of at 1.
  by rewrite length_replicate.
Qed.

(** X7. Whatever the counts, the sea [renderChart] builds holds
    [WAVE_COUNT] waves, or as many as the counts ask for when that is
    more: the filler loop tops the sea up and never takes a wave away. *)
Theorem place_length es counts :
  length (place es counts)
  = Nat.max (Z.to_nat Renderer.WAVE_COUNT)
      (sum_list_with (λ e, Z.to_nat (default 0 (counts !! stateCode e))) es).
Proof.
  rewrite place_eq, length_app, length_replicate, length_waves.
  unfold Renderer.WAVE_COUNT. lia.
Qed.

Lemma counts_of_finish r : ∀ l,
  (∀ it, it ∈ l → finish r !! stateCode (ent it) = Some (count it)) →
  well_counted l →
  Z.of_nat (sum_list_with (λ e, Z.to_nat (default 0 (finish r !! stateCode e)))
                          (ent <$> l))
  = sum_counts l.
Proof.
  induction l as [|it l IH]; intros Hl Hwc; [done|].
  apply Forall_cons in Hwc as [Hc Hwc].
  rewrite fmap_cons. cbn [sum_list_with sum_counts foldr].
  rewrite Nat2Z.inj_add, IH; [|intros; apply Hl; by right|done].
  rewrite Hl by left. simpl. fold (sum_counts l).
  unfold counted in Hc. case_decide; lia.
Qed.

(** What [renderChart] appends for the counts of a returned allocation:
    as many waves as the budget. *)
Lemma length_waves_finish es r :
  NoDup (stateCode <$> es) → ent <$> r ≡ₚ es → well_counted r →
  Z.of_nat (length (es ≫= waves_of (finish r))) = sum_counts r.
Proof.
  intros Hnd Hp Hwc. rewrite length_waves, <- Hp.
  apply counts_of_finish; [|done].
  intros it Hin. by apply (finish_lookup es).
Qed.

Lemma page_key_eq p yr cls :
  currentYear p = Some yr → classValue p = pretty cls →
  page_key p = bucket_key yr cls.
Proof. unfold page_key, bucket_key. by intros -> ->. Qed.

(** [renderChart] on the page, read through the bucket it looks up. *)
Lemma page_renderChart_bucket raw fuel p yr cls states :
  currentYear p = Some yr → classValue p = pretty cls →
  lookup_bucket (aggregate raw) yr cls = Some states →
  renderChart localeCompare (byYearClass (aggregateAndNormalize raw)) fuel p
  = outcome_map
      (λ counts,
         setAnimationState (animationsPaused p)
           (set_sea p
              (place (bucket_entries localeCompare (normalizeBucket states)) counts)
              true false))
      (distributeWaves fuel (bucket_entries localeCompare (normalizeBucket states))
         Renderer.WAVE_COUNT).
Proof.
  intros Hy Hc Hb. unfold renderChart.
  rewrite (page_key_eq p yr cls Hy Hc), byYearClass_lookup, Hb. simpl.
  rewrite decide_False; [done|].
  rewrite length_fmap. unfold entries_of. rewrite length_map_to_list.
  rewrite normalizeBucket_fmap, map_size_fmap.
  intros Hsz%map_size_empty_iff. by eapply bucket_nonempty.
Qed.

(** X8. For a page showing a bucket of at most [WAVE_COUNT] states whose
    contributions are not negative and do not total zero, [renderChart]
    returns; the sea then holds exactly [WAVE_COUNT] waves and no filler:
    the waves of each state side by side, in the sorted order of the
    entries, as many as [distributeWaves] counted for it, all of them
    playing or resting as [animationsPaused] says; the warning is hidden. *)
Theorem renderChart_fills_sea raw yr cls states p :
  Forall (λ d, (0 ≤ Raw.value_contribution_to_class d)%Qc) raw →
  lookup_bucket (aggregate raw) yr cls = Some states →
  total states ≠ 0%Qc →
  (size states ≤ 100)%nat →
  currentYear p = Some yr → classValue p = pretty cls →
  ∃ fuel m p',
    distributeWaves fuel (bucket_entries localeCompare (normalizeBucket states))
      Renderer.WAVE_COUNT = Returned m
    ∧ renderChart localeCompare (byYearClass (aggregateAndNormalize raw)) fuel p
      = Returned p'
    ∧ sea p' = set_playState (animationsPaused p)
                 <$> (bucket_entries localeCompare (normalizeBucket states)
                      ≫= waves_of m)
    ∧ length (sea p') = Z.to_nat Renderer.WAVE_COUNT
    ∧ warning_hidden p' = true ∧ no_data p' = false.
Proof.
  intros Hnn Hb Ht Hsize Hy Hc.
  set (entries := bucket_entries localeCompare (normalizeBucket states)).
  destruct (bucket_feasible localeCompare raw yr cls states Hnn Hb Ht Hsize)
    as (Hs & Hnd & Hfeas & Hsome). fold entries in Hs, Hnd, Hfeas, Hsome.
  destruct (feasible_returns entries Renderer.WAVE_COUNT Hs Hfeas Hsome)
    as (fuel & m & Hm).
  destruct (feasible_result _ _ _ _ Hs Hnd Hm) as (r & -> & Hwc & Hsum & Hent).
  pose proof (length_waves_finish entries r Hnd Hent Hwc) as Hlen.
  rewrite Hsum in Hlen.
  eexists fuel, (finish r), _. split; [done|]. split.
  { rewrite (page_renderChart_bucket raw fuel p yr cls states Hy Hc Hb).
    fold entries. rewrite Hm. done. }
  assert (place entries (finish r) = entries ≫= waves_of (finish r)) as Hplace.
  { rewrite place_eq, <- Hlen, Z.sub_diag. simpl. by rewrite app_nil_r. }
  cbn [sea setAnimationState set_sea warning_hidden no_data]. rewrite Hplace.
  split_and!; [done| |done|done].
  rewrite length_fmap. lia.
Qed.

End PageFacts.

(** ** The order of the entries *)

Section SortedEntries.
Import Allocator Renderer.

Variable localeCompare : string → string → Z.
Hypothesis compare_antisym : ∀ a b,
  Z.sgn (localeCompare b a) = - Z.sgn (localeCompare a b).
Hypothesis compare_trans : ∀ a b c,
  localeCompare a b ≤ 0 → localeCompare b c ≤ 0 → localeCompare a c ≤ 0.





End SortedEntries.

(** ** The handlers *)

Section HandlerFacts.
Import Page.

Variable localeCompare : string → string → Z.
Variable byYearClass : gmap string (gmap string Norm.state).
Variable years : list Z.

Implicit Types (p : page) (w : wave) (ev : event) (evs : list event).

Abbreviation renderChart := (Page.renderChart localeCompare byYearClass).
Abbreviation handle := (Page.handle localeCompare byYearClass years).
Abbreviation run := (Page.run localeCompare byYearClass years).

Lemma setAnimationState_waves paused p :
  Forall (λ w, playState w = Some paused) (sea (setAnimationState paused p)).
Proof. simpl. apply Forall_fmap, Forall_true. done. Qed.

(** What a returning [renderChart] leaves of the page it was called on. *)
Lemma renderChart_returned fuel p p' :
  renderChart fuel p = Returned p' →
  currentYear p' = currentYear p ∧ classValue p' = classValue p
  ∧ animationsPaused p' = animationsPaused p ∧ wasPaused p' = wasPaused p
  ∧ info_active p' = info_active p
  ∧ yearToggle_text p' = yearToggle_text p
  ∧ waves_follow_flag p'
  ∧ (button_follows_flag p → button_follows_flag p').
Proof.
  unfold Page.renderChart. case_decide as Hlen.
  - intros [= <-]. split_and!; try done. apply Forall_nil_2.
  - destruct (Allocator.distributeWaves _ _ _) as [counts| |]; simpl; [|done..].
    intros [= <-]. split_and!; try done.
    apply (setAnimationState_waves (animationsPaused p)).
Qed.

Lemma toggle_follows p :
  waves_follow_flag (toggle p) ∧ button_follows_flag (toggle p).
Proof.
  split; [|done]. apply (setAnimationState_waves (negb (animationsPaused p))).
Qed.

Lemma closePanel_follows p :
  waves_follow_flag (closePanel p) ∧ button_follows_flag (closePanel p).
Proof. split; [|done]. apply (setAnimationState_waves (wasPaused p)). Qed.

Lemma handle_follows fuel ev p p' :
  handle fuel ev p = Returned p' →
  (waves_follow_flag p → waves_follow_flag p')
  ∧ (button_follows_flag p → button_follows_flag p').
Proof.
  destruct ev as [| c | | field code | | into |]; simpl.
  - intros (_ & _ & _ & _ & _ & _ & Hw & Hb)%renderChart_returned. split; [done|].
    intros Hp. by apply Hb.
  - intros (_ & _ & _ & _ & _ & _ & Hw & Hb)%renderChart_returned. split; [done|].
    intros Hp. by apply Hb.
  - intros [= <-]. by destruct (toggle_follows p).
  - destruct field; [by intros [= <-]|]. case_decide; intros [= <-]; [|done].
    by destruct (toggle_follows p).
  - intros [= <-]. split; [|done]. intros _.
    apply (setAnimationState_waves true).
  - destruct into; intros [= <-]; [done|]. by destruct (closePanel_follows p).
  - intros [= <-]. by destruct (closePanel_follows p).
Qed.

(** X9. Whatever the events, as long as the handlers return: once every
    wave plays or rests as [animationsPaused] says this stays so, and once
    the toggle button shows the sign of [animationsPaused] this stays so. *)
Theorem waves_keep_following fuel evs : ∀ p p',
  run fuel evs p = Returned p' →
  (waves_follow_flag p → waves_follow_flag p')
  ∧ (button_follows_flag p → button_follows_flag p').
Proof.
  induction evs as [|ev evs IH]; intros p p'; simpl.
  - by intros [= <-].
  - destruct (handle fuel ev p) as [q| |] eqn:Hq; [|done..].
    intros Hrun. destruct (handle_follows _ _ _ _ Hq) as [Hw Hb].
    destruct (IH _ _ Hrun) as [Hw' Hb']. split; intros ?; auto.
Qed.

Lemma handle_beside_panel fuel ev p p' :
  beside_panel ev = true → handle fuel ev p = Returned p' →
  wasPaused p' = wasPaused p ∧ info_active p' = info_active p.
Proof.
  destruct ev as [| c | | field code | | into |]; simpl; try done.
  - by intros _ (_ & _ & _ & ? & ? & _)%renderChart_returned.
  - by intros _ (_ & _ & _ & ? & ? & _)%renderChart_returned.
  - by intros _ [= <-].
  - intros _. destruct field; [by intros [= <-]|]. by case_decide; intros [= <-].
  - destruct into; [|done]. by intros _ [= <-].
Qed.

Lemma run_beside_panel fuel evs : ∀ p p',
  forallb beside_panel evs = true → run fuel evs p = Returned p' →
  wasPaused p' = wasPaused p ∧ info_active p' = info_active p.
Proof.
  induction evs as [|ev evs IH]; intros p p'; simpl.
  - by intros _ [= <-].
  - intros [Hev Hevs]%andb_prop.
    destruct (handle fuel ev p) as [q| |] eqn:Hq; [|done..].
    intros Hrun. destruct (handle_beside_panel _ _ _ _ Hev Hq) as [<- <-].
    by apply IH.
Qed.

Lemma run_app fuel evs1 evs2 p :
  run fuel (evs1 ++ evs2) p
  = match run fuel evs1 p with
    | Returned q => run fuel evs2 q
    | Threw e => Threw e
    | OutOfFuel => OutOfFuel
    end.
Proof.
  revert p. induction evs1 as [|ev evs1 IH]; intros p; simpl; [done|].
  by destruct (handle fuel ev p).
Qed.

(** X10. Closing the info panel, by leaving the button towards anything
    but the panel or by entering the overlay, puts [animationsPaused] back
    to what it was when the pointer entered the button: what the toggle
    button, the space bar, the year button or the class picker did in
    between is forgotten. *)
Theorem closing_restores_flag fuel evs closing p p' :
  forallb beside_panel evs = true →
  closing = OverlayEnter ∨ closing = InfoLeave false →
  run fuel (InfoEnter :: evs ++ [closing]) p = Returned p' →
  animationsPaused p' = animationsPaused p
  ∧ info_active p' = false
  ∧ waves_follow_flag p' ∧ button_follows_flag p'.
Proof.
  intros Hevs Hclosing. cbn [Page.run Page.handle]. rewrite run_app.
  set (q := setAnimationState true _).
  destruct (run fuel evs q) as [q'| |] eqn:Hq; [|done..].
  destruct (run_beside_panel _ _ _ _ Hevs Hq) as [Hwas _].
  assert (run fuel [closing] q' = Returned (closePanel q')) as ->
    by (by destruct Hclosing as [-> | ->]).
  intros [= <-]. destruct (closePanel_follows q') as [Hw Hb].
  split_and!; [|done..]. simpl. by rewrite Hwas.
Qed.

(** ** The year button *)

Lemma indexOf_lookup (l : list Z) : ∀ i y,
  NoDup l → l !! i = Some y → indexOf l y = Z.of_nat i.
Proof.
  induction l as [|x l IH]; intros i y Hnd Hi; [done|].
  apply NoDup_cons in Hnd as [Hx Hnd]. destruct i as [|i]; simpl in *.
  - injection Hi as ->. by rewrite decide_True.
  - rewrite decide_False; [|intros ->; by apply Hx, list_elem_of_lookup; eauto].
    rewrite (IH i y) by done. rewrite decide_False by lia. lia.
Qed.

Lemma next_year_lookup (l : list Z) i y :
  NoDup l → l !! i = Some y →
  next_year l (Some y) = l !! ((i + 1) `mod` length l)%nat.
Proof.
  intros Hnd Hi. unfold next_year. rewrite (indexOf_lookup l i y) by done.
  assert (i < length l)%nat as Hlt by (by eapply lookup_lt_Some).
  rewrite decide_False by (by intros ->).
  rewrite Z.rem_mod_nonneg by lia. f_equal.
  rewrite <- (Nat2Z.id ((i + 1) `mod` length l)%nat). f_equal.
  rewrite Nat2Z.inj_mod. f_equal. lia.
Qed.

End HandlerFacts.

Section YearButton.
Import Aggregator AggregateFacts Page.

Variable localeCompare : string → string → Z.

Lemma years_NoDup raw : NoDup (years (aggregateAndNormalize raw)).
Proof.
  simpl. rewrite sort_numeric_perm. by destruct (yearsSet_spec raw).
Qed.

(** X11. The year button walks through the years of the data in
    ascending order and starts again after the last one: [k] clicks from
    the year at position [i] lead to the year at position [(i + k) mod n],
    which the button then shows. *)
Theorem year_button_cycles raw fuel k : ∀ i y p p',
  let data := aggregateAndNormalize raw in
  years data !! i = Some y →
  currentYear p = Some y →
  run localeCompare (byYearClass data) (years data) fuel (replicate k YearClick) p
  = Returned p' →
  currentYear p' = years data !! ((i + k) `mod` length (years data))%nat
  ∧ is_Some (currentYear p')
  ∧ (0 < k → yearToggle_text p' = currentYear p')%nat.
Proof.
  intros i y p p' data. revert i y p p'.
  induction k as [|k IH]; intros i y p p' Hi Hy.
  - intros [= <-]. rewrite Nat.add_0_r, Nat.mod_small by (by eapply lookup_lt_Some).
    rewrite Hy, Hi. split_and!; [done|by eexists|lia].
  - cbn [replicate Page.run Page.handle].
    destruct (renderChart _ _ _ _) as [q| |] eqn:Hq; [|done..].
    apply renderChart_returned in Hq as (Hqy & _ & _ & _ & _ & Hqt & _).
    cbn [currentYear yearToggle_text set_year] in Hqy, Hqt.
    rewrite Hy, (next_year_lookup (years data) i y (years_NoDup raw) Hi) in Hqy, Hqt.
    assert (i < length (years data))%nat as Hlt by (by eapply lookup_lt_Some).
    destruct (lookup_lt_is_Some_2 (years data) ((i + 1) `mod` length (years data)))
      as [y' Hy']; [apply Nat.mod_upper_bound; lia|].
    intros Hrun.
    destruct (IH _ y' q p' Hy' ltac:(by rewrite Hqy) Hrun) as (Hc & Hs & Ht).
    rewrite Nat.Div0.add_mod_idemp_l in Hc.
    replace (i + 1 + k)%nat with (i + S k)%nat in Hc by lia.
    split_and!; [done..|]. intros _. destruct k as [|k]; [|apply Ht; lia].
    injection Hrun as <-. by rewrite Hqt, Hqy.
Qed.

End YearButton.

(** ** The tooltip *)

Section Tooltip.
Import Page.

Lemma Qcle_by_difference (a b c d : Qc) :
  (b - a = d - c)%Qc → (a ≤ b)%Qc ↔ (c ≤ d)%Qc.
Proof.
  intros Heq. rewrite (Qcle_minus_iff a b), (Qcle_minus_iff c d).
  change (0 ≤ b - a ↔ 0 ≤ d - c)%Qc. by rewrite Heq.
Qed.

(** X12. [onWaveMove] never lets the tooltip reach into the right margin
    of 5% of the window width; it stays out of the left margin exactly when
    the tooltip is no wider than the space between the margins; and a
    tooltip that fits where it is centred on the pointer stays there. *)
Theorem onWaveMove_margins tw th vw pageX pageY :
  let edge := (vw * Q2Qc (5 # 100))%Qc in
  let centred := (pageX - tw / Qc_of_Z 2)%Qc in
  let left := (onWaveMove tw th vw pageX pageY).1 in
  (left + tw ≤ vw - edge)%Qc
  ∧ ((edge ≤ left)%Qc ↔ (tw ≤ vw - edge - edge)%Qc)
  ∧ ((edge ≤ centred)%Qc ∧ (centred + tw ≤ vw - edge)%Qc → left = centred).
Proof.
  intros edge centred left. unfold left, onWaveMove. cbv zeta.
  fold edge. fold centred. cbn [fst].
  destruct (decide (centred < edge)%Qc) as [Hlow|Hlow].
  - destruct (decide (vw - edge < edge + tw)%Qc) as [Hhigh|Hhigh].
    + split_and!.
      * replace (vw - tw - edge + tw)%Qc with (vw - edge)%Qc by ring.
        apply Qcle_refl.
      * rewrite (Qcle_by_difference edge (vw - tw - edge) tw (vw - edge - edge))
          by ring.
        split; intros Hle; [done|].
        apply Qclt_not_le in Hhigh. destruct Hhigh.
        by rewrite (Qcle_by_difference (edge + tw) (vw - edge) tw (vw - edge - edge))
          by ring.
      * intros [Hc _]. by apply Qcle_not_lt in Hc.
    + apply Qcnot_lt_le in Hhigh. split_and!; [done| |].
      * split; [|intros _; apply Qcle_refl]. intros _.
        by rewrite <- (Qcle_by_difference (edge + tw) (vw - edge) tw (vw - edge - edge))
          by ring.
      * intros [Hc _]. by apply Qcle_not_lt in Hc.
  - apply Qcnot_lt_le in Hlow.
    destruct (decide (vw - edge < centred + tw)%Qc) as [Hhigh|Hhigh].
    + split_and!.
      * replace (vw - tw - edge + tw)%Qc with (vw - edge)%Qc by ring.
        apply Qcle_refl.
      * rewrite (Qcle_by_difference edge (vw - tw - edge) tw (vw - edge - edge))
          by ring. done.
      * intros [_ Hc]. by apply Qcle_not_lt in Hc.
    + apply Qcnot_lt_le in Hhigh. split_and!; [done| |done].
      split; [|done]. intros _.
      rewrite <- (Qcle_by_difference (edge + tw) (vw - edge) tw (vw - edge - edge))
        by ring.
      apply Qcle_trans with (centred + tw)%Qc; [|done].
      by apply Qcplus_le_mono_r.
Qed.

End Tooltip.

(** ** The theorems above on sample pages *)


Lemma renderChart_fills_sea_witness :
  ∃ fuel p',
    Page.renderChart (λ _ _, 0)
      (Aggregator.byYearClass (Aggregator.aggregateAndNormalize RawExamples.sample))
      fuel (Page.set_year PageExamples.fresh (Some 2022)) = Returned p'
    ∧ length (Page.sea p') = 100%nat.
Proof.
  destruct (AggregatorNotions.lookup_bucket
              (Aggregator.aggregate RawExamples.sample) 2022 1) as [states|] eqn:Hb;
    [|by vm_compute in Hb].
  assert (Forall (λ d, (0 ≤ Raw.value_contribution_to_class d)%Qc) RawExamples.sample)
    as Hnn by each_by_evaluation.
  assert (Aggregator.total states ≠ 0%Qc ∧ (size states ≤ 100)%nat) as [Ht Hsize].
  { vm_compute in Hb. injection Hb as <-. split; [by_evaluation|vm_compute; lia]. }
  destruct (renderChart_fills_sea (λ _ _, 0) RawExamples.sample 2022 1 states
              (Page.set_year PageExamples.fresh (Some 2022))
              Hnn Hb Ht Hsize eq_refl eq_refl)
    as (fuel & m & p' & _ & Hp' & _ & Hlen & _).
  exists fuel, p'. split; [exact Hp'|exact Hlen].
Defined.

Lemma waves_keep_following_witness :
  ∃ p',
    Page.run (λ _ _, 0)
      (Aggregator.byYearClass (Aggregator.aggregateAndNormalize RawExamples.sample))
      [2021; 2022] 200 [Page.YearClick; Page.ToggleClick; Page.InfoEnter]
      PageExamples.fresh = Returned p'
    ∧ Page.waves_follow_flag p' ∧ Page.button_follows_flag p'.
Proof.
  destruct (Page.run _ _ _ _ _ _) as [p'| |] eqn:Hrun;
    [|by vm_compute in Hrun..].
  exists p'. split; [done|].
  destruct (waves_keep_following _ _ _ _ _ _ _ Hrun) as [Hw Hb].
  split; [apply Hw, Forall_nil_2|by apply Hb].
Defined.

Lemma closing_restores_flag_witness :
  ∃ p',
    Page.run (λ _ _, 0) ∅ [] 0
      (Page.InfoEnter
         :: [Page.ToggleClick; Page.KeyDown false "Space"; Page.ToggleClick]
         ++ [Page.OverlayEnter])
      PageExamples.fresh = Returned p'
    ∧ Page.animationsPaused p' = false.
Proof.
  eexists. split; [reflexivity|].
  by destruct (closing_restores_flag (λ _ _, 0) ∅ [] 0
                 [Page.ToggleClick; Page.KeyDown false "Space"; Page.ToggleClick]
                 Page.OverlayEnter PageExamples.fresh _
                 eq_refl (or_introl eq_refl) eq_refl) as [-> _].
Defined.

Lemma year_button_cycles_witness :
  ∃ p',
    Page.run (λ _ _, 0)
      (Aggregator.byYearClass (Aggregator.aggregateAndNormalize RawExamples.sample))
      (Aggregator.years (Aggregator.aggregateAndNormalize RawExamples.sample))
      200 (replicate 3 Page.YearClick) PageExamples.fresh = Returned p'
    ∧ Page.currentYear p' = Some 2022.
Proof.
  destruct (Page.run _ _ _ _ _ _) as [p'| |] eqn:Hrun;
    [|by vm_compute in Hrun..].
  exists p'. split; [done|].
  by destruct (year_button_cycles (λ _ _, 0) RawExamples.sample 200 3 0%nat 2021
                 PageExamples.fresh p' eq_refl eq_refl Hrun) as [-> _].
Defined.

(** * The morphing title *)

Section MorphFacts.
Import Morph.

Implicit Types (s : state) (ev : event) (evs : list event).

Ltac morph_fields :=
  cbn [mi morph cooldown loops last isMorphPaused text1 text2 style requested
       requestAnimationFrame doCooldown setMorph set_mi set_morph set_cooldown
       set_loops set_last set_isMorphPaused set_requested].

(** Quotient and remainder by six of [n] and of [n + 1], for [lia]. *)
Lemma by_six (n : nat) :
  (n = 6 * (n `div` 6) + n `mod` 6 ∧ n `mod` 6 < 6
   ∧ n + 1 = 6 * ((n + 1) `div` 6) + (n + 1) `mod` 6 ∧ (n + 1) `mod` 6 < 6)%nat.
Proof.
  split_and!; [apply Nat.div_mod_eq|by apply Nat.mod_upper_bound
              |apply Nat.div_mod_eq|by apply Nat.mod_upper_bound].
Qed.

Lemma COOLDOWN_pos : ¬ (COOLDOWN ≤ 0)%Qc.
Proof. by_evaluation. Qed.

Lemma tickMorph_in_bounds nowMs s :
  in_bounds s → (loops s < MAX_LOOPS)%nat → requested s = false →
  in_bounds (tickMorph nowMs s)
  ∧ requested (tickMorph nowMs s)
    = bool_decide (loops (tickMorph nowMs s) < MAX_LOOPS)%nat.
Proof.
  unfold in_bounds, MAX_LOOPS. change (length morphTexts) with 6%nat.
  intros (Hmi & Hloops & Hcd) Hlt Hreq. unfold tickMorph. cbv zeta.
  pose proof (by_six (mi s)) as Hsix.
  morph_fields. change (length morphTexts) with 6%nat. unfold MAX_LOOPS.
  assert (bool_decide (loops s < 2)%nat = true) as Hlt'
    by (by apply bool_decide_eq_true).
  destruct (isMorphPaused s); cbn [orb].
  { morph_fields. split_and!; [lia|lia|done|by intros ?%COOLDOWN_pos|done]. }
  rewrite bool_decide_eq_false_2 by lia.
  destruct (decide (0 < cooldown s)%Qc) as [Hpos|Hpos].
  - destruct (decide (cooldown s - (nowMs / Qc_of_Z 1000 - last s) ≤ 0)%Qc)
      as [Hout|Hout].
    + destruct (decide ((mi s + 1) `mod` 6 = 0)%nat) as [Hround|Hround].
      * destruct (decide (2 ≤ loops s + 1)%nat) as [Hstop|Hstop]; morph_fields.
        -- split_and!; [lia|lia|lia|lia|]. rewrite Hreq. symmetry.
           apply bool_decide_eq_false. lia.
        -- split_and!; [lia|lia|lia|lia|]. symmetry.
           apply bool_decide_eq_true. lia.
      * morph_fields. split_and!; [lia|lia|lia|lia|done].
    + morph_fields. split_and!; [lia|lia|done|done|done].
  - apply Qcnot_lt_le, Hcd in Hpos.
    destruct (decide (1 ≤ (morph s + (nowMs / Qc_of_Z 1000 - last s)) / MORPH_TIME)%Qc);
      morph_fields.
    + split_and!; [lia|lia|done|by intros ?%COOLDOWN_pos|done].
    + split_and!; [lia|lia|done|done|done].
Qed.

Lemma step_in_bounds s ev :
  in_bounds s ∧ requested s = bool_decide (loops s < MAX_LOOPS)%nat →
  in_bounds (step s ev)
  ∧ requested (step s ev) = bool_decide (loops (step s ev) < MAX_LOOPS)%nat.
Proof.
  intros [Hb Hr]. destruct ev as [nowMs| |]; simpl; [|done..].
  destruct (requested s) eqn:Hreq; [|by rewrite Hreq].
  symmetry in Hr. apply bool_decide_eq_true in Hr.
  by apply tickMorph_in_bounds.
Qed.

Lemma run_snoc evs ev s : run (evs ++ [ev]) s = step (run evs s) ev.
Proof. unfold run. by rewrite foldl_app. Qed.

Lemma run_in_bounds now evs :
  in_bounds (run evs (initMorph now))
  ∧ requested (run evs (initMorph now))
    = bool_decide (loops (run evs (initMorph now)) < MAX_LOOPS)%nat.
Proof.
  induction evs as [|ev evs IH] using rev_ind.
  - split; [|done].
    split_and!; [simpl; lia|simpl; lia|done|by intros ?%COOLDOWN_pos].
  - rewrite run_snoc. by apply step_in_bounds.
Qed.

(** X13. Whatever frames and pointer events follow [initMorph]: [mi]
    stays between 5 and 12, [loops] is the number of completed rounds
    [mi div 6], and a further call of [tickMorph] is requested exactly as
    long as [loops < MAX_LOOPS], that is until [mi] reaches 12: [tickMorph]
    is never entered with [loops >= MAX_LOOPS]. *)
Theorem title_stops_after_two_rounds now evs :
  let s := run evs (initMorph now) in
  (5 ≤ mi s ≤ 12)%nat
  ∧ loops s = (mi s `div` 6)%nat
  ∧ (requested s = false ↔ mi s = 12%nat)
  ∧ (requested s = true ↔ (loops s < MAX_LOOPS)%nat).
Proof.
  intros s. destruct (run_in_bounds now evs) as [(Hmi & Hloops & _) Hreq].
  fold s in Hmi, Hloops, Hreq. unfold MAX_LOOPS in *.
  change (length morphTexts) with 6%nat in *.
  pose proof (by_six (mi s)) as Hsix.
  split_and!; [lia|lia|done| |].
  - rewrite Hreq. rewrite bool_decide_eq_false. lia.
  - rewrite Hreq. by rewrite bool_decide_eq_true.
Qed.

Lemma tickMorph_texts nowMs s :
  in_bounds s → texts_settled s → texts_settled (tickMorph nowMs s).
Proof.
  unfold in_bounds, texts_settled. change (length morphTexts) with 6%nat.
  intros (Hmi & Hloops & Hcd) [Ht Hs]. unfold tickMorph. cbv zeta.
  morph_fields. change (length morphTexts) with 6%nat.
  destruct (isMorphPaused s || bool_decide (MAX_LOOPS ≤ loops s)%nat);
    [by morph_fields|].
  destruct (decide (0 < cooldown s)%Qc) as [Hpos|Hpos].
  - repeat case_decide; by morph_fields.
  - apply Qcnot_lt_le, Hcd in Hpos.
    assert (morphTexts !! mi s = None) as Hnone
      by (apply lookup_ge_None_2; simpl; lia).
    case_decide; morph_fields; rewrite Hnone.
    + split; [by right|]. split_and!; [done..|]. apply Qcle_refl.
    + split; [by right|]. split_and!; [done..|]. by apply Qclt_le_weak, Qcnot_le_lt.
Qed.

(** X14. Whatever frames and pointer events follow [initMorph]: the first
    text element holds the last title, which [initMorph] gave it, or
    [undefined]; and whenever the styles are those of [setMorph], the first
    text is [undefined], since [mi] is then past the end of [morphTexts],
    the second text is [morphTexts[(mi + 1) % 6]], and the fraction is at
    most 1. *)
Theorem setMorph_shows_no_first_text now evs :
  let s := run evs (initMorph now) in
  (text1 s = Some "2050 is now." ∨ text1 s = None)
  ∧ match style s with
    | Morphing frac =>
        text1 s = None
        ∧ text2 s = morphTexts !! ((mi s + 1) `mod` 6)%nat
        ∧ (frac ≤ 1)%Qc
    | _ => True
    end.
Proof.
  intros s. change (texts_settled s). unfold s. clear s.
  induction evs as [|ev evs IH] using rev_ind.
  - split; [by left|done].
  - rewrite run_snoc. destruct (run_in_bounds now evs) as [Hb _].
    destruct ev as [nowMs| |]; simpl; [|done..].
    destruct (requested _); [|done]. by apply tickMorph_texts.
Qed.

End MorphFacts.

(** * The text of the info panel *)

Section InfoPanelFacts.
Import InfoPanel.

Implicit Types (s p cur v : jsstring) (parts : list jsstring) (sp : bool)
  (frag : list piece) (x : piece) (n k : nat) (step : Qc).

Lemma run_of_snoc sp cur c : run_of sp cur → is_space c = sp → run_of sp (cur ++ [c]).
Proof.
  intros [Hne Hall] Hc. split; [by destruct cur|].
  apply Forall_app. split; [done|]. by constructor.
Qed.

Lemma all_space_run sp p : run_of sp p → all_space p = sp.
Proof.
  intros [Hne Hall]. destruct p as [|c p]; [done|]. unfold all_space.
  destruct sp.
  - clear Hne. induction Hall as [|d l Hd _ IH]; [done|].
    cbn [forallb]. by rewrite Hd, IH.
  - apply Forall_cons in Hall as [Hc _]. cbn [forallb]. by rewrite Hc.
Qed.

Lemma scan_spec s : ∀ sp cur,
  run_of sp cur →
  concat (scan sp cur s) = cur ++ s ∧ alternating sp (scan sp cur s).
Proof.
  induction s as [|c s IH]; intros sp cur Hcur; simpl.
  - by rewrite !app_nil_r.
  - case_bool_decide as Hc.
    + destruct (IH sp (cur ++ [c])) as [Hcat Halt]; [by apply run_of_snoc|].
      split; [|done]. by rewrite Hcat, <- app_assoc.
    + destruct (IH (is_space c) [c]) as [Hcat Halt]; [split; [done|by constructor]|].
      simpl. rewrite Hcat. split; [done|]. split; [done|].
      by replace (negb sp) with (is_space c) by (by destruct (is_space c), sp).
Qed.

Lemma match_parts_ink v :
  has_ink v = true →
  ∃ parts, match_parts v = Some parts ∧ concat parts = v
           ∧ ∃ sp, alternating sp parts.
Proof.
  destruct v as [|c v]; [done|]. intros _. eexists. split; [done|].
  destruct (scan_spec v (is_space c) [c]) as [Hcat Halt];
    [split; [done|by constructor]|].
  split; [done|]. by exists (is_space c).
Qed.

(** X15. The parts [match] finds with [(\s+|[^\s]+)] tile the string:
    put together they give it back, each part is a non-empty run of white
    space or a non-empty run without any, and the two kinds alternate,
    starting with the kind of the first code unit.  Only the empty string
    has no parts. *)
Theorem match_parts_runs s :
  match match_parts s with
  | None => s = []
  | Some parts =>
      concat parts = s
      ∧ ∃ c s', s = c :: s' ∧ alternating (is_space c) parts
  end.
Proof.
  destruct s as [|c s]; [done|]. simpl.
  destruct (scan_spec s (is_space c) [c]) as [Hcat Halt];
    [split; [done|by constructor]|].
  split; [done|]. by exists c, s.
Qed.

Lemma foldl_wrap_part step parts : ∀ sp frag n,
  alternating sp parts →
  ∃ new,
    foldl (wrap_part step) (frag, n) parts = (frag ++ new, (n + length (delays new))%nat)
    ∧ text_of <$> new = parts
    ∧ Forall well_wrapped new
    ∧ delays new = (λ i, Qc_of_Z (Z.of_nat i) * step)%Qc <$> seq n (length (delays new)).
Proof.
  induction parts as [|p parts IH]; intros sp frag n Halt.
  - exists []. simpl. by rewrite app_nil_r, Nat.add_0_r.
  - destruct Halt as [Hp Halt]. cbn [foldl]. unfold wrap_part at 2. cbn [fst snd].
    rewrite (all_space_run sp p Hp). destruct sp.
    + destruct (IH _ (frag ++ [TextNode p]) n Halt) as (new & -> & Ht & Hw & Hd).
      exists (TextNode p :: new). rewrite <- app_assoc. split_and!; [done| | |done].
      * by rewrite fmap_cons, Ht.
      * by constructor.
    + destruct (IH _ (frag ++ [Span p (Qc_of_Z (Z.of_nat n) * step)]) (S n) Halt)
        as (new & -> & Ht & Hw & Hd).
      exists (Span p (Qc_of_Z (Z.of_nat n) * step) :: new).
      rewrite <- app_assoc. split_and!.
      * simpl. f_equal. lia.
      * by rewrite fmap_cons, Ht.
      * by constructor.
      * simpl. by rewrite Hd at 1.
Qed.

Lemma delays_app frag1 frag2 : delays (frag1 ++ frag2) = delays frag1 ++ delays frag2.
Proof. apply omap_app. Qed.

Lemma foldl_wrap_node step nodes : ∀ out n,
  Forall (λ v, has_ink v = true) nodes →
  ∃ frags,
    foldl (wrap_node step) (out, n) nodes
    = (out ++ (Some <$> frags), (n + length (delays (concat frags)))%nat)
    ∧ Forall2 (λ v frag, concat (text_of <$> frag) = v ∧ Forall well_wrapped frag)
        nodes frags
    ∧ delays (concat frags)
      = (λ i, Qc_of_Z (Z.of_nat i) * step)%Qc
          <$> seq n (length (delays (concat frags))).
Proof.
  induction nodes as [|v nodes IH]; intros out n Hink.
  - exists []. simpl. by rewrite app_nil_r, Nat.add_0_r.
  - apply Forall_cons in Hink as [Hv Hink]. cbn [foldl]. unfold wrap_node at 2.
    destruct (match_parts_ink v Hv) as (parts & -> & Hcat & sp & Halt).
    cbn [fst snd].
    destruct (foldl_wrap_part step parts sp [] n Halt) as (new & -> & Ht & Hw & Hd).
    cbn [fst snd]. rewrite app_nil_l.
    destruct (IH (out ++ [Some new]) (n + length (delays new))%nat Hink)
      as (frags & -> & Hall & Hds).
    exists (new :: frags). cbn [concat]. rewrite delays_app, length_app.
    split_and!.
    + rewrite fmap_cons, <- app_assoc. simpl. f_equal. lia.
    + constructor; [|done]. split; [|done]. by rewrite Ht.
    + rewrite seq_app, fmap_app. by rewrite <- Hd, <- Hds.
Qed.

(** X16. [wrapAllCharacters] replaces every text node [getTextNodes]
    finds; the pieces that replace a node spell its text, the text nodes
    among them hold white space only and the spans none; and the delays of
    the spans, read through the container in document order, are
    [0], [step], [2 * step], and so on. *)
Theorem wrapAllCharacters_spans step texts :
  ∃ frags,
    wrapAllCharacters step texts = Some <$> frags
    ∧ Forall2 (λ v frag, concat (text_of <$> frag) = v ∧ Forall well_wrapped frag)
        (getTextNodes texts) frags
    ∧ delays (concat frags)
      = (λ i, Qc_of_Z (Z.of_nat i) * step)%Qc
          <$> seq 0 (length (delays (concat frags))).
Proof.
  destruct (foldl_wrap_node step (getTextNodes texts) [] 0%nat) as (frags & Hf & ?).
  { unfold getTextNodes. apply Forall_forall. by intros v [? _]%list_elem_of_filter. }
  exists frags. split; [|done]. unfold wrapAllCharacters. by rewrite Hf.
Qed.

End InfoPanelFacts.
